(** * Copy-on-write trie and versioned trie store (src/trie/src.hpp)

    A shallow embedding of [sjtu::TrieNode], [sjtu::TrieNodeWithValue<T>],
    [sjtu::Trie], [sjtu::ValueGuard<T>] and [sjtu::TrieStore].

    Nodes live in an explicit heap, so that a [std::shared_ptr] is an
    address and "the same node instance" is equality of addresses.  The
    member functions are written in a small heap monad that follows the
    source statement by statement: allocation ([std::make_shared],
    [Clone]), in-place updates of freshly made nodes
    ([cur->children_[c] = ...]), the explicit path stack and both loops. *)

From stdpp Require Import base list gmap strings.
From Stdlib Require Import ZArith Ascii.

Open Scope Z_scope.
Open Scope nat_scope.

(** ** Heap monad *)

Module HeapM.

(** State passing over a heap of cells of type [N]; [None] is undefined
    behaviour of the C++ program (a null or dangling dereference,
    [back()] of an empty vector). *)
Definition M (N A : Type) : Type := list N → option (A * list N).

Definition ret {N A} (a : A) : M N A := λ h, Some (a, h).

Definition bind {N A B} (m : M N A) (k : A → M N B) : M N B :=
  λ h, match m h with
       | Some (a, h') => k a h'
       | None => None
       end.

Definition fail {N A} : M N A := λ _, None.

(** [std::make_shared<...>(...)]: a fresh cell, at the next address. *)
Definition alloc {N} (n : N) : M N nat := λ h, Some (length h, h ++ [n]).

(** [*p] for reading. *)
Definition load {N} (p : nat) : M N N :=
  λ h, match h !! p with
       | Some n => Some (n, h)
       | None => None
       end.

(** [*p = n]. *)
Definition store {N} (p : nat) (n : N) : M N unit :=
  λ h, if decide (p < length h) then Some ((), <[p := n]> h) else None.

End HeapM.

Import HeapM.

Notation "x <- c ;; k" := (bind c (λ x, k))
  (at level 65, c at next level, right associativity).
Notation "c ;;; k" := (bind c (λ _, k))
  (at level 65, right associativity).

(** ** [size_t] *)

(** [size_t] of an LP64 platform: 64 bits, arithmetic modulo [2^64]. *)
Definition size_t_modulus : Z := (2 ^ 64)%Z.
Definition size_t_wrap (z : Z) : Z := (z mod size_t_modulus)%Z.
Definition is_size_t (z : Z) : Prop := (0 ≤ z < size_t_modulus)%Z.

(** [static_cast<size_t>(-1)]. *)
Definition size_t_minus_one : Z := size_t_wrap (-1).

(** [v.size()] of a [std::vector]. *)
Definition vec_size {A} (v : list A) : Z := Z.of_nat (length v).

(** An address of a node: a [std::shared_ptr<const TrieNode>] that is not
    null. *)
Abbreviation loc := nat (only parsing).

(** [Trie] has the single data member [root_]; [None] is [nullptr]. *)
Abbreviation Trie := (option loc).

(** A key ([std::string_view]) is the sequence of its characters. *)
Abbreviation key := (list ascii).

(** The path stack of [Put] and [Remove]; the head is the top. *)
Abbreviation path_stack := (list (loc * ascii)).

Section Model.

(** [TypeTag] stands for the C++ types [T] a value can be stored at (the
    run-time type that [dynamic_cast] inspects); [Val] is the universe of
    their values.  A [std::shared_ptr<T>] to a value is never written
    through after [std::make_shared], so it is represented by the value
    it points to. *)
Context {TypeTag : Type} `{!EqDecision TypeTag} {Val : Type}.

(** The dynamic class of a node object: [TrieNode] itself or
    [TrieNodeWithValue<T>], which adds the member [value_]. *)
Inductive NodeClass :=
| ClsTrieNode
| ClsTrieNodeWithValue (T : TypeTag) (value_ : Val).

Record TrieNode := mkTrieNode {
  children_ : gmap ascii loc;
  is_value_node_ : bool;
  node_class : NodeClass
}.

Abbreviation heap := (list TrieNode).

(** [TrieNode()]: no children, [is_value_node_{false}]. *)
Definition TrieNode_default : TrieNode :=
  mkTrieNode ∅ false ClsTrieNode.

(** [TrieNodeWithValue(children, value)]: sets [is_value_node_ = true]. *)
Definition TrieNodeWithValue_new (children : gmap ascii loc)
    (T : TypeTag) (value : Val) : TrieNode :=
  mkTrieNode children true (ClsTrieNodeWithValue T value).

(** The virtual [Clone()]: [TrieNode::Clone] or its override in
    [TrieNodeWithValue<T>], chosen by the dynamic class. *)
Definition Clone (n : TrieNode) : TrieNode :=
  match node_class n with
  | ClsTrieNode =>
      let clonedNode := TrieNode_default in
      let clonedNode := mkTrieNode (children_ n)
                          (is_value_node_ clonedNode) (node_class clonedNode) in
      mkTrieNode (children_ clonedNode) (is_value_node_ n) (node_class clonedNode)
  | ClsTrieNodeWithValue T v =>
      let clonedNode := TrieNodeWithValue_new ∅ T v in
      let clonedNode := mkTrieNode (children_ n)
                          (is_value_node_ clonedNode) (node_class clonedNode) in
      mkTrieNode (children_ clonedNode) (is_value_node_ n) (node_class clonedNode)
  end.

(** [p->children_[c] = q]. *)
Definition set_child (p : loc) (c : ascii) (q : loc) : M TrieNode unit :=
  n <- load p ;;
  store p (mkTrieNode (<[c := q]> (children_ n)) (is_value_node_ n) (node_class n)).

(** [p->children_.erase(c)]. *)
Definition erase_child (p : loc) (c : ascii) : M TrieNode unit :=
  n <- load p ;;
  store p (mkTrieNode (delete c (children_ n)) (is_value_node_ n) (node_class n)).

(** [p->is_value_node_ = b]. *)
Definition set_is_value_node (p : loc) (b : bool) : M TrieNode unit :=
  n <- load p ;;
  store p (mkTrieNode (children_ n) b (node_class n)).

(** [n.children_.empty() && !n.is_value_node_]. *)
Definition node_is_empty (n : TrieNode) : bool :=
  bool_decide (children_ n = ∅) && negb (is_value_node_ n).

(** ** [Trie] *)

(** [Trie::operator==]: equality of the root pointers. *)
Definition Trie_eq (a b : Trie) : bool := bool_decide (a = b).

(** The [for] loop of [Trie::Get]: [None] is the [return nullptr] inside
    the loop. *)
Fixpoint Get_loop (k : key) (cur : loc) : M TrieNode (option loc) :=
  match k with
  | [] => ret (Some cur)
  | c :: k' =>
      n <- load cur ;;
      match children_ n !! c with
      | None => ret None
      | Some child => Get_loop k' child
      end
  end.

(** [Trie::Get<T>]; the result [None] is [nullptr], [Some v] a pointer to
    the stored [v]. *)
Definition Get (T : TypeTag) (k : key) (t : Trie) : M TrieNode (option Val) :=
  match t with
  | None => ret None
  | Some root =>
      r <- Get_loop k root ;;
      match r with
      | None => ret None
      | Some cur =>
          n <- load cur ;;
          if negb (is_value_node_ n) then ret None
          else
            (* dynamic_cast<const TrieNodeWithValue<T> *>(cur) *)
            match node_class n with
            | ClsTrieNode => ret None
            | ClsTrieNodeWithValue U v =>
                if decide (U = T) then ret (Some v) else ret None
            end
      end
  end.

(** The [for] loop of [Put] in the branch [root_ == nullptr]. *)
Fixpoint Put_loop_null (k : key) (cur : loc) (path : path_stack)
    : M TrieNode (loc * path_stack) :=
  match k with
  | [] => ret (cur, path)
  | c :: k' =>
      let path := (cur, c) :: path in
      newNode <- alloc TrieNode_default ;;
      set_child cur c newNode ;;;
      Put_loop_null k' newNode path
  end.

(** The [for] loop of [Put] in the branch with a root. *)
Fixpoint Put_loop (k : key) (cur : loc) (path : path_stack)
    : M TrieNode (loc * path_stack) :=
  match k with
  | [] => ret (cur, path)
  | c :: k' =>
      let path := (cur, c) :: path in
      n <- load cur ;;
      match children_ n !! c with
      | None =>
          newNode <- alloc TrieNode_default ;;
          set_child cur c newNode ;;;
          Put_loop k' newNode path
      | Some child =>
          cn <- load child ;;
          clonedChild <- alloc (Clone cn) ;;
          set_child cur c clonedChild ;;;
          Put_loop k' clonedChild path
      end
  end.

(** The [while (!path.empty())] loop of [Put]. *)
Fixpoint Put_unwind (path : path_stack) (cur : loc) : M TrieNode loc :=
  match path with
  | [] => ret cur
  | (parent, c) :: path' =>
      set_child parent c cur ;;;
      Put_unwind path' parent
  end.

(** [Trie::Put<T>]. *)
Definition Put (T : TypeTag) (k : key) (value : Val) (t : Trie)
    : M TrieNode Trie :=
  match t with
  | None =>
      cur <- alloc TrieNode_default ;;
      r <- Put_loop_null k cur [] ;;
      let '(cur, path) := r in
      n <- load cur ;;
      valueNode <- alloc (TrieNodeWithValue_new (children_ n) T value) ;;
      cur <- Put_unwind path valueNode ;;
      ret (Some cur)
  | Some root =>
      rn <- load root ;;
      cur <- alloc (Clone rn) ;;
      r <- Put_loop k cur [] ;;
      let '(cur, path) := r in
      n <- load cur ;;
      valueNode <- alloc (TrieNodeWithValue_new (children_ n) T value) ;;
      cur <- Put_unwind path valueNode ;;
      ret (Some cur)
  end.

(** The [for] loop of [Remove]; [None] is the [return *this] inside it. *)
Fixpoint Remove_loop (k : key) (current : loc) (path : path_stack)
    : M TrieNode (option (loc * path_stack)) :=
  match k with
  | [] => ret (Some (current, path))
  | c :: k' =>
      n <- load current ;;
      match children_ n !! c with
      | None => ret None
      | Some child =>
          cn <- load child ;;
          cloned_child <- alloc (Clone cn) ;;
          set_child current c cloned_child ;;;
          Remove_loop k' cloned_child ((current, c) :: path)
      end
  end.

(** The [while (!path.empty())] loop of [Remove]. *)
Fixpoint Remove_unwind (path : path_stack) (current : loc) : M TrieNode unit :=
  match path with
  | [] => ret ()
  | (parent, c) :: path' =>
      n <- load current ;;
      (if node_is_empty n then erase_child parent c else ret ()) ;;;
      Remove_unwind path' parent
  end.

(** [Trie::Remove].  Clearing [is_value_node_] leaves the object what it
    is, a [TrieNodeWithValue<T>] that still holds [value_]; the
    [dynamic_pointer_cast<TrieNode>] of [current] to its own static type
    that follows gives [current] back. *)
Definition Remove (k : key) (t : Trie) : M TrieNode Trie :=
  match t with
  | None => ret t
  | Some root =>
      rn <- load root ;;
      new_root <- alloc (Clone rn) ;;
      r <- Remove_loop k new_root [] ;;
      match r with
      | None => ret t
      | Some (current, path) =>
          n <- load current ;;
          if negb (is_value_node_ n) then ret t
          else
            set_is_value_node current false ;;;
            Remove_unwind path current ;;;
            nr <- load new_root ;;
            if node_is_empty nr then ret None else ret (Some new_root)
      end
  end.

(** ** [ValueGuard] and [TrieStore] *)

(** [ValueGuard<T>]: the members [root_] and [value_]. *)
Record ValueGuard := mkValueGuard {
  guard_root_ : Trie;
  guard_value_ : Val
}.

(** [TrieStore] has the data member [snapshots_]; the two mutexes order
    concurrent calls and have no part in what one call computes. *)
Record TrieStore := mkTrieStore { snapshots_ : list Trie }.

(** [std::vector<Trie> snapshots_{1}]: one default-constructed [Trie]. *)
Definition TrieStore_new : TrieStore := mkTrieStore [None].

(** [TrieStore::Get<T>(key, version)]. *)
Definition TrieStore_Get (T : TypeTag) (k : key) (version : Z) (s : TrieStore)
    : M TrieNode (option ValueGuard) :=
  let target_version : option Z :=
    if decide (version = size_t_minus_one) then
      if bool_decide (snapshots_ s = []) then None
      else Some (size_t_wrap (vec_size (snapshots_ s) - 1))
    else Some version in
  match target_version with
  | None => ret None
  | Some target_version =>
      if decide (vec_size (snapshots_ s) ≤ target_version)%Z then ret None
      else
        match snapshots_ s !! Z.to_nat target_version with
        | None => fail
        | Some target_trie =>
            value <- Get T k target_trie ;;
            match value with
            | None => ret None
            | Some v => ret (Some (mkValueGuard target_trie v))
            end
        end
  end.

(** [TrieStore::Get<T>(key)], with the default argument [version = -1]. *)
Definition TrieStore_Get_latest (T : TypeTag) (k : key) (s : TrieStore)
    : M TrieNode (option ValueGuard) :=
  TrieStore_Get T k size_t_minus_one s.

(** [snapshots_.back()]. *)
Definition snapshots_back (s : TrieStore) : M TrieNode Trie :=
  match last (snapshots_ s) with
  | Some t => ret t
  | None => fail
  end.

(** [TrieStore::Put<T>]: the returned version and the store afterwards. *)
Definition TrieStore_Put (T : TypeTag) (k : key) (value : Val) (s : TrieStore)
    : M TrieNode (Z * TrieStore) :=
  current_trie <- snapshots_back s ;;
  new_trie <- Put T k value current_trie ;;
  let s := mkTrieStore (snapshots_ s ++ [new_trie]) in
  ret (size_t_wrap (vec_size (snapshots_ s) - 1), s).

(** [TrieStore::Remove]. *)
Definition TrieStore_Remove (k : key) (s : TrieStore)
    : M TrieNode (Z * TrieStore) :=
  current_trie <- snapshots_back s ;;
  new_trie <- Remove k current_trie ;;
  if Trie_eq new_trie current_trie then
    ret (size_t_wrap (vec_size (snapshots_ s) - 1), s)
  else
    let s := mkTrieStore (snapshots_ s ++ [new_trie]) in
    ret (size_t_wrap (vec_size (snapshots_ s) - 1), s).

(** [TrieStore::get_version]. *)
Definition get_version (s : TrieStore) : Z :=
  if bool_decide (snapshots_ s = []) then 0%Z
  else size_t_wrap (vec_size (snapshots_ s) - 1).

(** ** Specification-level notions *)

(** Every child pointer stored in the heap points into the heap: no
    pointer dangles. *)
Definition heap_closed (h : heap) : Prop :=
  Forall (λ n, map_Forall (λ _ q, q < length h) (children_ n)) h.

#[global] Instance heap_closed_dec (h : heap) : Decision (heap_closed h).
Proof. unfold heap_closed. apply _. Defined.

(** The root of a trie, if any, is an allocated node. *)
Definition trie_wf (h : heap) (t : Trie) : Prop :=
  match t with
  | None => True
  | Some root => root < length h
  end.

(** The node that the loop of [Get] reaches from [cur] along [k], read
    off the heap without running the monad. *)
Fixpoint find_node (h : heap) (k : key) (cur : loc) : option loc :=
  match k with
  | [] => Some cur
  | c :: k' =>
      match h !! cur with
      | Some n =>
          match children_ n !! c with
          | Some child => find_node h k' child
          | None => None
          end
      | None => None
      end
  end.

(** The node of key [k] in the trie [t]. *)
Definition node_of (h : heap) (t : Trie) (k : key) : option loc :=
  match t with
  | None => None
  | Some root => find_node h k root
  end.

(** Key [k] is stored in [t]: its node exists and is a value node. *)
Definition stored (h : heap) (t : Trie) (k : key) : Prop :=
  ∃ q n, node_of h t k = Some q ∧ h !! q = Some n ∧ is_value_node_ n = true.

(** What [Get<T>] answers at a node. *)
Definition value_at (T : TypeTag) (n : TrieNode) : option Val :=
  if negb (is_value_node_ n) then None
  else match node_class n with
       | ClsTrieNode => None
       | ClsTrieNodeWithValue U v => if decide (U = T) then Some v else None
       end.

(** The answer of [Get<T>] from node [q] on, read off the heap. *)
Definition value_from (T : TypeTag) (h : heap) (k : key) (q : loc)
    : option Val :=
  match find_node h k q with
  | Some x => match h !! x with Some n => value_at T n | None => None end
  | None => None
  end.

(** The answer of [Get<T>], read off the heap. *)
Definition lookup_value (T : TypeTag) (h : heap) (t : Trie) (k : key)
    : option Val :=
  match t with
  | Some root => value_from T h k root
  | None => None
  end.

(** The store is in a state that its constructor and its member
    functions produce: at least one snapshot, no dangling pointer. *)
Definition store_wf (h : heap) (s : TrieStore) : Prop :=
  snapshots_ s ≠ [] ∧ heap_closed h ∧ Forall (trie_wf h) (snapshots_ s).

(** A call of a mutating member function of [TrieStore]. *)
Inductive store_op :=
| OpPut (T : TypeTag) (k : key) (value : Val)
| OpRemove (k : key).

Definition run_op (o : store_op) (s : TrieStore) : M TrieNode (Z * TrieStore) :=
  match o with
  | OpPut T k v => TrieStore_Put T k v s
  | OpRemove k => TrieStore_Remove k s
  end.

(** A sequence of such calls, one after the other. *)
Fixpoint run_ops (os : list store_op) (s : TrieStore) : M TrieNode TrieStore :=
  match os with
  | [] => ret s
  | o :: os' => r <- run_op o s ;; run_ops os' (snd r)
  end.

(** *** The shape of the heap after [Put] and [Remove] *)

(** [n] with the child at [c] set to [q], as [set_child] leaves it. *)
Definition with_child (c : ascii) (q : loc) (n : TrieNode) : TrieNode :=
  mkTrieNode (<[c := q]> (children_ n)) (is_value_node_ n) (node_class n).

(** The node that stood, before the call, where a node of the new path
    stands now; a place that had no node counts as a fresh [TrieNode()]. *)
Definition old_node (h0 : heap) (o : Trie) : TrieNode :=
  match o with
  | Some a => default TrieNode_default (h0 !! a)
  | None => TrieNode_default
  end.

(** The bottom of the path stack: the node that ends up as the root. *)
Fixpoint path_root (path : path_stack) (top : loc) : loc :=
  match path with
  | [] => top
  | (p, _) :: path' => path_root path' p
  end.

(** Every entry [(p, c)] of the stack has its child at [c] pointing at
    the entry above it, the topmost at [top]; addresses grow upwards. *)
Fixpoint linked (h : heap) (path : path_stack) (top : loc) : Prop :=
  match path with
  | [] => True
  | (p, c) :: path' =>
      p < top ∧ (∃ n, h !! p = Some n ∧ children_ n !! c = Some top)
      ∧ linked h path' p
  end.

(** The heap with the topmost entry of the stack pointed at [q]. *)
Definition relink (path : path_stack) (q : loc) (h : heap) : heap :=
  match path with
  | [] => h
  | (p, c) :: _ => alter (with_child c q) p h
  end.

(** The rest of [Put] after [cur] and [path] are set up: the loop, the
    value node and the unwinding, as both branches of [Put] have them. *)
Definition Put_rest (T : TypeTag) (value : Val) (k : key) (cur : loc)
    (path : path_stack) : M TrieNode loc :=
  r <- Put_loop k cur path ;;
  let '(cur, path) := r in
  n <- load cur ;;
  valueNode <- alloc (TrieNodeWithValue_new (children_ n) T value) ;;
  Put_unwind path valueNode.

(** [q] is, in heap [h'], the node that [Put<T>(k, v)] makes of the old
    place [o]: a copy of the old node with the child towards [k]
    replaced, and at the end of [k] the value node with the old
    children. *)
Fixpoint updated (T : TypeTag) (v : Val) (h0 h' : heap) (o : Trie)
    (k : key) (q : loc) : Prop :=
  match k with
  | [] => h' !! q = Some (TrieNodeWithValue_new (children_ (old_node h0 o)) T v)
  | c :: k' =>
      ∃ q', h' !! q = Some (with_child c q' (old_node h0 o))
            ∧ length h0 ≤ q'
            ∧ updated T v h0 h' (children_ (old_node h0 o) !! c) k' q'
  end.

(** [n] with the child at [c] erased, as [erase_child] leaves it. *)
Definition without_child (c : ascii) (n : TrieNode) : TrieNode :=
  mkTrieNode (delete c (children_ n)) (is_value_node_ n) (node_class n).

(** The stack of [Remove]: every entry [(p, c)] is a copy of a node [ap]
    of the old heap whose child at [c] is the old node [a] that the entry
    above it copies, and [p] itself points at that copy instead; the
    bottom entry copies [root0]. *)
Fixpoint cloned_path (h0 h : heap) (root0 : loc) (path : path_stack)
    (top a : loc) : Prop :=
  match path with
  | [] => a = root0
  | (p, c) :: path' =>
      ∃ ap np, h0 !! ap = Some np ∧ children_ np !! c = Some a
        ∧ h !! p = Some (with_child c top np)
        ∧ length h0 ≤ p ∧ p < top
        ∧ cloned_path h0 h root0 path' p ap
  end.

(** [q] is, in heap [h'], what [Remove(k)] makes of the old node [a]: at
    the end of [k] a copy with the value flag cleared, before that a copy
    whose child towards [k] is the copy below, or is erased when that
    copy came out without children and without a value. *)
Fixpoint removed (h0 h' : heap) (a : loc) (k : key) (q : loc) : Prop :=
  match k with
  | [] => ∃ n, h0 !! a = Some n
               ∧ h' !! q = Some (mkTrieNode (children_ n) false (node_class n))
  | c :: k' =>
      ∃ n child q' nq',
        h0 !! a = Some n ∧ children_ n !! c = Some child ∧ q < q'
        ∧ removed h0 h' child k' q' ∧ h' !! q' = Some nq'
        ∧ h' !! q = Some (if node_is_empty nq' then without_child c n
                          else with_child c q' n)
  end.

(** *** Further notions *)

(** [ValueGuard::operator*]: the value the guard refers to. *)
Definition ValueGuard_deref (g : ValueGuard) : Val := guard_value_ g.

(** No node of the trie is dead: every node that a key reaches has a
    child or is a value node, which is what the test
    [children_.empty() && !is_value_node_] of [Remove] asks of a node it
    keeps. *)
Definition no_dead_nodes (h : heap) (t : Trie) : Prop :=
  ∀ k q n, node_of h t k = Some q → h !! q = Some n → node_is_empty n = false.

(** ** The heap monad, step by step *)

Lemma bind_run {A B} (m : M TrieNode A) (k : A → M TrieNode B) h a h1 :
  m h = Some (a, h1) → bind m k h = k a h1.
Proof. intros E. unfold bind. by rewrite E. Qed.

Lemma load_run (h : heap) p n : h !! p = Some n → load p h = Some (n, h).
Proof. intros E. unfold load. by rewrite E. Qed.

Lemma alloc_run (h : heap) n : alloc n h = Some (length h, h ++ [n]).
Proof. reflexivity. Qed.

Lemma store_run (h : heap) p n :
  p < length h → store p n h = Some ((), <[p := n]> h).
Proof. intros E. unfold store. by rewrite decide_True. Qed.

Lemma TrieNode_eta (n : TrieNode) :
  mkTrieNode (children_ n) (is_value_node_ n) (node_class n) = n.
Proof. by destruct n. Qed.

Lemma Clone_same (n : TrieNode) : Clone n = n.
Proof. destruct n as [ch b [|T v]]; reflexivity. Qed.

Lemma set_child_run (h : heap) p c q n :
  h !! p = Some n →
  set_child p c q h =
    Some ((), <[p := mkTrieNode (<[c := q]> (children_ n))
                       (is_value_node_ n) (node_class n)]> h).
Proof.
  intros E. unfold set_child. rewrite (bind_run _ _ _ _ _ (load_run _ _ _ E)).
  apply store_run. by eapply lookup_lt_Some.
Qed.

Lemma erase_child_run (h : heap) p c n :
  h !! p = Some n →
  erase_child p c h =
    Some ((), <[p := mkTrieNode (delete c (children_ n))
                       (is_value_node_ n) (node_class n)]> h).
Proof.
  intros E. unfold erase_child. rewrite (bind_run _ _ _ _ _ (load_run _ _ _ E)).
  apply store_run. by eapply lookup_lt_Some.
Qed.

Lemma set_is_value_node_run (h : heap) p b n :
  h !! p = Some n →
  set_is_value_node p b h =
    Some ((), <[p := mkTrieNode (children_ n) b (node_class n)]> h).
Proof.
  intros E. unfold set_is_value_node.
  rewrite (bind_run _ _ _ _ _ (load_run _ _ _ E)).
  apply store_run. by eapply lookup_lt_Some.
Qed.

(** A link that is already in place is written again without effect. *)
Lemma set_child_same (h : heap) p c q n :
  h !! p = Some n → children_ n !! c = Some q →
  set_child p c q h = Some ((), h).
Proof.
  intros E Ec. rewrite (set_child_run _ _ _ _ _ E).
  rewrite (insert_id _ _ _ Ec), TrieNode_eta.
  by rewrite (list_insert_id _ _ _ E).
Qed.

(** ** Closed heaps and heaps that extend one another *)

Lemma heap_closed_lookup (h : heap) a n c q :
  heap_closed h → h !! a = Some n → children_ n !! c = Some q → q < length h.
Proof.
  intros Hc Ha Hq. unfold heap_closed in Hc.
  rewrite Forall_lookup in Hc. exact (Hc a n Ha c q Hq).
Qed.

Lemma heap_closed_intro (h : heap) :
  (∀ a n c q, h !! a = Some n → children_ n !! c = Some q → q < length h) →
  heap_closed h.
Proof.
  intros H. apply Forall_lookup. intros a n Ha c q Hq. eauto.
Qed.

Lemma heap_closed_nil : heap_closed [].
Proof. constructor. Qed.

Lemma heap_closed_alloc (h : heap) n :
  heap_closed h →
  (∀ c q, children_ n !! c = Some q → q < S (length h)) →
  heap_closed (h ++ [n]).
Proof.
  intros Hc Hn. apply heap_closed_intro. intros a m c q Ha Hq.
  rewrite length_app. simpl.
  apply lookup_app_Some in Ha as [Ha | [_ Ha]].
  - pose proof (heap_closed_lookup _ _ _ _ _ Hc Ha Hq). lia.
  - apply list_lookup_singleton_Some in Ha as [_ <-].
    specialize (Hn c q Hq). lia.
Qed.

Lemma heap_closed_store (h : heap) p n :
  heap_closed h →
  (∀ c q, children_ n !! c = Some q → q < length h) →
  heap_closed (<[p := n]> h).
Proof.
  intros Hc Hn. apply heap_closed_intro. intros a m c q Ha Hq.
  rewrite length_insert.
  destruct (decide (a = p)) as [-> | Hne].
  - destruct (decide (p < length h)) as [Hlt | Hge].
    + rewrite list_lookup_insert_eq in Ha by done.
      injection Ha as <-. eauto.
    + rewrite list_insert_ge in Ha by lia.
      eapply heap_closed_lookup; eauto.
  - rewrite list_lookup_insert_ne in Ha by done.
    eapply heap_closed_lookup; eauto.
Qed.

Lemma prefix_store (h0 h : heap) p n :
  h0 `prefix_of` h → length h0 ≤ p → h0 `prefix_of` <[p := n]> h.
Proof.
  intros [k ->] Hp. rewrite insert_app_r_alt by done. by eexists.
Qed.

Lemma heap_prefix_lookup (h0 h : heap) a :
  h0 `prefix_of` h → a < length h0 → h !! a = h0 !! a.
Proof. intros [k ->] Ha. by rewrite lookup_app_l. Qed.

(** Walking from an allocated node of a closed heap stays inside that
    heap, so a larger heap shows the same walk. *)
Lemma find_node_prefix (h0 h : heap) k a :
  heap_closed h0 → h0 `prefix_of` h → a < length h0 →
  find_node h k a = find_node h0 k a.
Proof.
  intros Hc Hp. revert a. induction k as [|c k IH]; intros a Ha; [done|].
  simpl. rewrite (heap_prefix_lookup _ _ _ Hp Ha).
  destruct (h0 !! a) as [n|] eqn:En; [|done].
  destruct (children_ n !! c) as [q|] eqn:Eq; [|done].
  apply IH. eapply heap_closed_lookup; eauto.
Qed.

Lemma find_node_lt (h : heap) k a q :
  heap_closed h → a < length h → find_node h k a = Some q → q < length h.
Proof.
  intros Hc. revert a. induction k as [|c k IH]; intros a Ha; simpl.
  - by intros [= <-].
  - destruct (h !! a) as [n|] eqn:En; [|done].
    destruct (children_ n !! c) as [x|] eqn:Ex; [|done].
    apply IH. eapply heap_closed_lookup; eauto.
Qed.

Lemma find_node_app (h : heap) k1 k2 a :
  find_node h (k1 ++ k2) a =
    match find_node h k1 a with
    | Some q => find_node h k2 q
    | None => None
    end.
Proof.
  revert a. induction k1 as [|c k1 IH]; intros a; [done|].
  simpl. destruct (h !! a) as [n|]; [|done].
  destruct (children_ n !! c); [|done]. apply IH.
Qed.

(** ** [Get] against its reading off the heap *)

Lemma Get_loop_run (h : heap) k cur :
  heap_closed h → cur < length h →
  Get_loop k cur h = Some (find_node h k cur, h).
Proof.
  intros Hc. revert cur. induction k as [|c k IH]; intros cur Hcur; [done|].
  simpl. destruct (lookup_lt_is_Some_2 h cur Hcur) as [n En].
  rewrite (bind_run _ _ _ _ _ (load_run _ _ _ En)), En.
  destruct (children_ n !! c) as [q|] eqn:Eq; [|done].
  apply IH. eapply heap_closed_lookup; eauto.
Qed.

Lemma Get_run (T : TypeTag) (h : heap) (t : Trie) k :
  heap_closed h → trie_wf h t →
  Get T k t h = Some (lookup_value T h t k, h).
Proof.
  intros Hc Ht. unfold Get, lookup_value, value_from.
  destruct t as [root|]; [|done]. simpl in Ht.
  rewrite (bind_run _ _ _ _ _ (Get_loop_run _ k _ Hc Ht)).
  destruct (find_node h k root) as [q|] eqn:Eq; [|done].
  pose proof (find_node_lt _ _ _ _ Hc Ht Eq) as Hq.
  destruct (lookup_lt_is_Some_2 h q Hq) as [n En].
  rewrite (bind_run _ _ _ _ _ (load_run _ _ _ En)), En.
  unfold value_at. destruct (negb (is_value_node_ n)); [done|].
  destruct (node_class n) as [|U v]; [done|].
  by destruct (decide (U = T)).
Qed.

Lemma lookup_value_prefix (T : TypeTag) (h0 h : heap) (t : Trie) k :
  heap_closed h0 → h0 `prefix_of` h → trie_wf h0 t →
  lookup_value T h t k = lookup_value T h0 t k.
Proof.
  intros Hc Hp Ht. unfold lookup_value, value_from.
  destruct t as [root|]; [|done]. simpl in Ht.
  rewrite (find_node_prefix _ _ _ _ Hc Hp Ht).
  destruct (find_node h0 k root) as [q|] eqn:Eq; [|done].
  by rewrite (heap_prefix_lookup _ _ _ Hp (find_node_lt _ _ _ _ Hc Ht Eq)).
Qed.

(** ** [Put]: the path that is built *)

Lemma bind_assoc {A B C} (m : M TrieNode A) (f : A → M TrieNode B)
    (g : B → M TrieNode C) h :
  bind (bind m f) g h = bind m (λ x, bind (f x) g) h.
Proof. unfold bind. destruct (m h) as [[a h1]|]; reflexivity. Qed.

Lemma set_child_with (h : heap) p c q n :
  h !! p = Some n → set_child p c q h = Some ((), <[p := with_child c q n]> h).
Proof. apply set_child_run. Qed.

Lemma with_child_same c q n :
  children_ n !! c = Some q → with_child c q n = n.
Proof.
  intros E. unfold with_child. by rewrite (insert_id _ _ _ E), TrieNode_eta.
Qed.

Lemma linked_below (h : heap) path top :
  linked h path top → Forall (λ pc, pc.1 < top) path.
Proof.
  revert top. induction path as [|[p c] path IH]; intros top; [constructor|].
  simpl. intros (Hlt & _ & Hl). constructor; [done|].
  eapply Forall_impl; [exact (IH _ Hl)|]. simpl. intros; lia.
Qed.

Lemma linked_frame (h h1 : heap) path top :
  linked h path top → (∀ a, a < top → h1 !! a = h !! a) → linked h1 path top.
Proof.
  revert top. induction path as [|[p c] path IH]; intros top; [done|].
  simpl. intros (Hlt & (n & En & Ec) & Hl) Hf. split; [done|]. split.
  - exists n. by rewrite Hf.
  - apply IH; [done|]. intros a Ha. apply Hf. lia.
Qed.

(** Unwinding a stack whose links are all in place changes nothing. *)
Lemma Put_unwind_linked (h : heap) path top :
  linked h path top → Put_unwind path top h = Some (path_root path top, h).
Proof.
  revert top. induction path as [|[p c] path IH]; intros top; [done|].
  simpl. intros (_ & (n & En & Ec) & Hl).
  rewrite (bind_run _ _ _ _ _ (set_child_same _ _ _ _ _ En Ec)). by apply IH.
Qed.

Lemma relink_linked (h : heap) path top :
  linked h path top → relink path top h = h.
Proof.
  destruct path as [|[p c] path]; [done|]. simpl.
  intros (_ & (n & En & Ec) & _).
  apply list_eq. intros a. destruct (decide (a = p)) as [->|Hne].
  - rewrite list_lookup_alter_eq, En. simpl. by rewrite with_child_same.
  - by rewrite list_lookup_alter_ne.
Qed.

Lemma old_node_child (h0 : heap) o c child :
  heap_closed h0 → children_ (old_node h0 o) !! c = Some child →
  child < length h0 ∧ h0 !! child = Some (old_node h0 (Some child)).
Proof.
  intros Hc E. destruct o as [a|]; simpl in E; [|by rewrite lookup_empty in E].
  destruct (h0 !! a) as [n|] eqn:En; simpl in E; [|by rewrite lookup_empty in E].
  pose proof (heap_closed_lookup _ _ _ _ _ Hc En E) as Hlt. split; [done|].
  destruct (lookup_lt_is_Some_2 h0 child Hlt) as [cn Ecn].
  simpl. by rewrite Ecn.
Qed.

Lemma old_node_children_lt (h0 : heap) o c child :
  heap_closed h0 → children_ (old_node h0 o) !! c = Some child →
  child < length h0.
Proof. intros Hc E. by destruct (old_node_child _ _ _ _ Hc E). Qed.

Lemma Put_rest_nil T v cur path (h : heap) n :
  h !! cur = Some n →
  Put_rest T v [] cur path h =
    Put_unwind path (length h)
      (h ++ [TrieNodeWithValue_new (children_ n) T v]).
Proof.
  intros E. unfold Put_rest. simpl. unfold bind at 1. simpl.
  by rewrite (bind_run _ _ _ _ _ (load_run _ _ _ E)).
Qed.

Lemma Put_rest_cons T v c k cur path (h : heap) n :
  h !! cur = Some n →
  Put_rest T v (c :: k) cur path h =
    let new := match children_ n !! c with
               | None => Some TrieNode_default
               | Some child => Clone <$> h !! child
               end in
    match new with
    | Some m =>
        Put_rest T v k (length h) ((cur, c) :: path)
          (<[cur := with_child c (length h) n]> (h ++ [m]))
    | None => None
    end.
Proof.
  intros E. unfold Put_rest. simpl Put_loop. rewrite bind_assoc.
  rewrite (bind_run _ _ _ _ _ (load_run _ _ _ E)).
  assert (Hset : ∀ m : TrieNode,
    set_child cur c (length h) (h ++ [m]) =
      Some ((), <[cur := with_child c (length h) n]> (h ++ [m]))).
  { intros m. apply set_child_with. apply lookup_app_l_Some. exact E. }
  destruct (children_ n !! c) as [child|]; simpl.
  - rewrite bind_assoc. unfold bind at 1, load.
    destruct (h !! child) as [cn|]; simpl; [|done].
    rewrite bind_assoc. unfold bind at 1, alloc. simpl.
    rewrite bind_assoc. by rewrite (bind_run _ _ _ _ _ (Hset _)).
  - rewrite bind_assoc. unfold bind at 1, alloc. simpl.
    rewrite bind_assoc. by rewrite (bind_run _ _ _ _ _ (Hset _)).
Qed.

Lemma Put_rest_spec T v (h0 : heap) k :
  heap_closed h0 →
  ∀ cur path (h : heap) o,
    h0 `prefix_of` h → heap_closed h →
    length h0 ≤ cur → h !! cur = Some (old_node h0 o) →
    linked h path cur → Forall (λ pc, length h0 ≤ pc.1) path →
    ∃ h' q, Put_rest T v k cur path h = Some (path_root path q, h')
      ∧ h0 `prefix_of` h' ∧ heap_closed h' ∧ length h ≤ length h'
      ∧ length h0 ≤ q ∧ q < length h'
      ∧ updated T v h0 h' o k q
      ∧ (∀ a, a < length h → a ≠ cur → h' !! a = relink path q h !! a).
Proof.
  intros Hc0.
  induction k as [|c k IH]; intros cur path h o Hp Hc Hcur Ecur Hl Hpath.
  - (* the key is consumed: the value node, then the unwinding *)
    rewrite (Put_rest_nil _ _ _ _ _ _ Ecur).
    set (vn := TrieNodeWithValue_new (children_ (old_node h0 o)) T v).
    pose proof (prefix_length _ _ Hp) as Hlen.
    assert (Hc2 : heap_closed (h ++ [vn])).
    { apply heap_closed_alloc; [done|]. intros c q Hq. simpl in Hq.
      pose proof (heap_closed_lookup _ _ _ _ _ Hc Ecur Hq). lia. }
    destruct path as [|[p cp] path].
    + exists (h ++ [vn]), (length h). simpl.
      split; [done|]. split; [by apply prefix_app_r|]. split; [done|].
      rewrite length_app. simpl. repeat split; try lia.
      * by rewrite lookup_app_r, Nat.sub_diag.
      * intros a Ha _. by rewrite lookup_app_l.
    + simpl in Hl. destruct Hl as (Hlt & (np & Enp & Ecp) & Hl).
      apply Forall_cons in Hpath as [Hp0 Hpath]. simpl in Hp0.
      pose proof (lookup_lt_Some _ _ _ Enp) as Hplt.
      exists (<[p := with_child cp (length h) np]> (h ++ [vn])), (length h).
      simpl.
      assert (Enp2 : (h ++ [vn]) !! p = Some np) by by apply lookup_app_l_Some.
      rewrite (bind_run _ _ _ _ _ (set_child_with _ _ _ _ _ Enp2)).
      split.
      { apply Put_unwind_linked. eapply linked_frame; [exact Hl|].
        intros a Ha. rewrite list_lookup_insert_ne by lia.
        apply lookup_app_l. lia. }
      split; [by apply prefix_store; [apply prefix_app_r|]|].
      split.
      { apply heap_closed_store; [done|]. intros c q. simpl.
        rewrite length_app. simpl. intros Hq.
        apply lookup_insert_Some in Hq as [[_ <-]|[_ Hq]]; [lia|].
        pose proof (heap_closed_lookup _ _ _ _ _ Hc Enp Hq). lia. }
      rewrite length_insert, length_app. simpl. repeat split; try lia.
      * rewrite list_lookup_insert_ne by lia.
        by rewrite lookup_app_r, Nat.sub_diag.
      * intros a Ha _. destruct (decide (a = p)) as [->|Hne].
        -- rewrite list_lookup_insert_eq by (rewrite length_app; simpl; lia).
           by rewrite list_lookup_alter_eq, Enp.
        -- rewrite list_lookup_insert_ne, list_lookup_alter_ne by done.
           by apply lookup_app_l.
  - (* one more character: clone or create the child, link it, go on *)
    rewrite (Put_rest_cons _ _ _ _ _ _ _ _ Ecur).
    pose proof (prefix_length _ _ Hp) as Hlen.
    pose proof (lookup_lt_Some _ _ _ Ecur) as Hcurlt.
    set (o' := children_ (old_node h0 o) !! c).
    assert (Hnew : match o' with
                   | None => Some TrieNode_default
                   | Some child => Clone <$> h !! child
                   end = Some (old_node h0 o')).
    { unfold o'. destruct (children_ (old_node h0 o) !! c) as [child|] eqn:Ech;
        [|done].
      destruct (old_node_child _ _ _ _ Hc0 Ech) as [Hlt Eold].
      rewrite (heap_prefix_lookup _ _ _ Hp Hlt), Eold. simpl.
      by rewrite Clone_same. }
    fold o'. rewrite Hnew. cbv beta iota zeta.
    set (m := old_node h0 o').
    set (h1 := <[cur := with_child c (length h) (old_node h0 o)]> (h ++ [m])).
    assert (Hm : ∀ c' q, children_ m !! c' = Some q → q < length h).
    { intros c' q Hq. pose proof (old_node_children_lt _ _ _ _ Hc0 Hq). lia. }
    assert (Hlen1 : length h1 = S (length h)).
    { unfold h1. rewrite length_insert, length_app. simpl. lia. }
    assert (Hc1 : heap_closed h1).
    { apply heap_closed_store.
      - apply heap_closed_alloc; [done|]. intros c' q Hq.
        specialize (Hm c' q Hq). lia.
      - intros c' q. simpl. rewrite length_app. simpl. intros Hq.
        apply lookup_insert_Some in Hq as [[_ <-]|[_ Hq]]; [lia|].
        pose proof (heap_closed_lookup _ _ _ _ _ Hc Ecur Hq). lia. }
    assert (Ecur1 : h1 !! cur = Some (with_child c (length h) (old_node h0 o))).
    { unfold h1. apply list_lookup_insert_eq. rewrite length_app. simpl. lia. }
    assert (Enew1 : h1 !! length h = Some m).
    { unfold h1. rewrite list_lookup_insert_ne by lia.
      by rewrite lookup_app_r, Nat.sub_diag. }
    assert (Hold1 : ∀ a, a < length h → a ≠ cur → h1 !! a = h !! a).
    { intros a Ha Hne. unfold h1. rewrite list_lookup_insert_ne by done.
      by apply lookup_app_l. }
    destruct (IH (length h) ((cur, c) :: path) h1 o') as
      (h' & q' & Erun & Hp' & Hc' & Hlen' & Hq0 & Hq' & Hupd & Hframe).
    { unfold h1. by apply prefix_store; [apply prefix_app_r|]. }
    { done. }
    { lia. }
    { done. }
    { simpl. split; [done|]. split.
      - eexists. split; [exact Ecur1|]. simpl. apply lookup_insert_eq.
      - eapply linked_frame; [exact Hl|]. intros a Ha. apply Hold1; lia. }
    { by constructor. }
    exists h', cur. simpl in Erun. rewrite Erun.
    split; [done|]. split; [done|]. split; [done|].
    split; [lia|]. split; [done|]. split; [lia|].
    assert (Ecur' : h' !! cur = Some (with_child c q' (old_node h0 o))).
    { rewrite Hframe by lia. simpl.
      rewrite list_lookup_alter_eq, Ecur1. simpl. unfold with_child. simpl.
      by rewrite insert_insert_eq. }
    split.
    + simpl. exists q'. done.
    + intros a Ha Hne. rewrite (relink_linked _ _ _ Hl).
      rewrite Hframe by lia. simpl.
      rewrite list_lookup_alter_ne by done. by apply Hold1.
Qed.

(** On a node without children the loop of the null branch does what the
    general loop does: no child is ever found. *)
Lemma Put_loop_null_eq k :
  ∀ cur path (h : heap) n,
    h !! cur = Some n → children_ n = ∅ →
    Put_loop_null k cur path h = Put_loop k cur path h.
Proof.
  induction k as [|c k IH]; intros cur path h n E Hn; [done|].
  simpl. rewrite (bind_run _ _ _ _ _ (load_run _ _ _ E)).
  rewrite Hn, lookup_empty. unfold bind at 1 3, alloc.
  assert (E2 : (h ++ [TrieNode_default]) !! cur = Some n)
    by by apply lookup_app_l_Some.
  rewrite !(bind_run _ _ _ _ _ (set_child_with _ _ _ _ _ E2)).
  apply (IH _ _ _ TrieNode_default); [|done].
  rewrite list_lookup_insert_ne
    by (apply lookup_lt_Some in E; lia).
  by rewrite lookup_app_r, Nat.sub_diag.
Qed.

Lemma Put_tail T v k cur path (h : heap) :
  (r <- Put_loop k cur path ;;
   let '(cur, path) := r in
   n <- load cur ;;
   valueNode <- alloc (TrieNodeWithValue_new (children_ n) T v) ;;
   cur <- Put_unwind path valueNode ;;
   ret (Some cur)) h
  = (r <- Put_rest T v k cur path ;; ret (Some r)) h.
Proof.
  unfold Put_rest, bind.
  destruct (Put_loop k cur path h) as [[[c1 p1] h1]|]; [|done].
  destruct (load c1 h1) as [[n h2]|]; [|done].
  destruct (alloc _ h2) as [[vn h3]|]; done.
Qed.

(** What [Put] returns: it always returns, its root is a node that did
    not exist before, the old heap is still there unchanged, and the new
    root is the old one updated along [k]. *)
Lemma Put_spec T v k (t : Trie) (h : heap) :
  heap_closed h → trie_wf h t →
  ∃ r h', Put T k v t h = Some (Some r, h')
    ∧ h `prefix_of` h' ∧ heap_closed h'
    ∧ length h ≤ r ∧ r < length h'
    ∧ updated T v h h' t k r.
Proof.
  intros Hc Ht.
  assert (Hgo : ∀ m, m = old_node h t →
    ∃ r h', (r <- Put_rest T v k (length h) [] ;; ret (Some r)) (h ++ [m])
              = Some (Some r, h')
      ∧ h `prefix_of` h' ∧ heap_closed h'
      ∧ length h ≤ r ∧ r < length h' ∧ updated T v h h' t k r).
  { intros m ->.
    destruct (Put_rest_spec T v h k Hc (length h) [] (h ++ [old_node h t]) t)
      as (h' & q & Erun & Hp' & Hc' & Hlen' & Hq0 & Hq' & Hupd & _).
    - by apply prefix_app_r.
    - apply heap_closed_alloc; [done|]. intros c q Hq.
      pose proof (old_node_children_lt _ _ _ _ Hc Hq). lia.
    - done.
    - by rewrite lookup_app_r, Nat.sub_diag.
    - done.
    - constructor.
    - exists q, h'. rewrite (bind_run _ _ _ _ _ Erun). done. }
  destruct t as [root|]; simpl in Ht.
  - destruct (lookup_lt_is_Some_2 h root Ht) as [rn Ern].
    unfold Put. rewrite (bind_run _ _ _ _ _ (load_run _ _ _ Ern)).
    rewrite (bind_run _ _ _ _ _ (alloc_run _ _)), Put_tail.
    apply Hgo. simpl. by rewrite Ern, Clone_same.
  - unfold Put. rewrite (bind_run _ _ _ _ _ (alloc_run _ _)).
    assert (Heq : ∀ K : loc * path_stack → M TrieNode Trie,
      bind (Put_loop_null k (length h) []) K (h ++ [TrieNode_default])
      = bind (Put_loop k (length h) []) K (h ++ [TrieNode_default])).
    { intros K. unfold bind.
      rewrite (Put_loop_null_eq k _ _ _ TrieNode_default); [done| |done].
      by rewrite lookup_app_r, Nat.sub_diag. }
    rewrite Heq, Put_tail. by apply Hgo.
Qed.

(** The new path ends in the value node. *)
Lemma updated_find T v (h0 h' : heap) k :
  ∀ o q, updated T v h0 h' o k q →
    ∃ vn ch, find_node h' k q = Some vn
      ∧ h' !! vn = Some (TrieNodeWithValue_new ch T v).
Proof.
  induction k as [|c k IH]; intros o q; simpl.
  - intros E. eauto.
  - intros (q' & E & _ & Hupd). rewrite E. simpl. rewrite lookup_insert_eq.
    eauto.
Qed.

(** Every node of the new path is a new node. *)
Lemma updated_fresh T v (h0 h' : heap) k :
  ∀ o q, updated T v h0 h' o k q → length h0 ≤ q →
    ∀ k1 x, k1 `prefix_of` k → find_node h' k1 q = Some x → length h0 ≤ x.
Proof.
  induction k as [|c k IH]; intros o q Hupd Hq k1 x Hpre.
  - apply prefix_nil_inv in Hpre as ->. simpl. by intros [= <-].
  - destruct k1 as [|c1 k1]; [simpl; by intros [= <-]|].
    apply prefix_cons_inv_1 in Hpre as Hc1. subst c1.
    apply prefix_cons_inv_2 in Hpre.
    simpl in Hupd. destruct Hupd as (q' & E & Hq' & Hupd).
    simpl. rewrite E. simpl. rewrite lookup_insert_eq. eauto.
Qed.

Lemma node_of_cons (h0 : heap) o c k :
  node_of h0 o (c :: k) =
    match children_ (old_node h0 o) !! c with
    | Some x => find_node h0 k x
    | None => None
    end.
Proof.
  destruct o as [a|]; simpl; [|done].
  destruct (h0 !! a) as [n|]; simpl; [done|]. by rewrite lookup_empty.
Qed.

(** Away from the path the new trie has the nodes of the old one. *)
Lemma updated_off_path T v (h0 h' : heap) k :
  heap_closed h0 → h0 `prefix_of` h' →
  ∀ o q, updated T v h0 h' o k q →
    ∀ k', ¬ k' `prefix_of` k → find_node h' k' q = node_of h0 o k'.
Proof.
  intros Hc Hp.
  assert (Hside : ∀ o c' k'' (ch : gmap ascii loc),
    ch !! c' = children_ (old_node h0 o) !! c' →
    match ch !! c' with
    | Some child => find_node h' k'' child
    | None => None
    end = node_of h0 o (c' :: k'')).
  { intros o c' k'' ch ->. rewrite node_of_cons.
    destruct (children_ (old_node h0 o) !! c') as [x|] eqn:Ex; [|done].
    apply find_node_prefix; [done..|]. by eapply old_node_children_lt. }
  induction k as [|c k IH]; intros o q Hupd k' Hk'.
  - destruct k' as [|c' k'']; [by destruct Hk'; apply prefix_nil|].
    simpl in Hupd. simpl. rewrite Hupd. simpl. by apply Hside.
  - destruct k' as [|c' k'']; [by destruct Hk'; apply prefix_nil|].
    simpl in Hupd. destruct Hupd as (q' & E & _ & Hupd).
    simpl. rewrite E. simpl.
    destruct (decide (c' = c)) as [->|Hne].
    + rewrite lookup_insert_eq, node_of_cons.
      rewrite (IH _ _ Hupd k'') by (intros Hpre; apply Hk'; by apply prefix_cons).
      by destruct (children_ (old_node h0 o) !! c).
    + apply Hside. by rewrite lookup_insert_ne.
Qed.

(** ** [Remove]: the path that is copied and pruned *)

Lemma erase_child_without (h : heap) p c n :
  h !! p = Some n → erase_child p c h = Some ((), <[p := without_child c n]> h).
Proof. apply erase_child_run. Qed.

Lemma Remove_loop_cons c k current path (h : heap) n :
  h !! current = Some n →
  Remove_loop (c :: k) current path h =
    match children_ n !! c with
    | None => Some (None, h)
    | Some child =>
        match h !! child with
        | Some cn =>
            Remove_loop k (length h) ((current, c) :: path)
              (<[current := with_child c (length h) n]> (h ++ [Clone cn]))
        | None => None
        end
    end.
Proof.
  intros E. simpl. rewrite (bind_run _ _ _ _ _ (load_run _ _ _ E)).
  destruct (children_ n !! c) as [child|]; [|done].
  unfold bind at 1, load. destruct (h !! child) as [cn|]; [|done].
  rewrite (bind_run _ _ _ _ _ (alloc_run _ _)).
  assert (E2 : (h ++ [Clone cn]) !! current = Some n)
    by by apply lookup_app_l_Some.
  by rewrite (bind_run _ _ _ _ _ (set_child_with _ _ _ _ _ E2)).
Qed.

Lemma Remove_unwind_cons p c path current (h : heap) ncur np :
  h !! current = Some ncur → h !! p = Some np →
  Remove_unwind ((p, c) :: path) current h =
    Remove_unwind path p
      (if node_is_empty ncur then <[p := without_child c np]> h else h).
Proof.
  intros E Ep. simpl. rewrite (bind_run _ _ _ _ _ (load_run _ _ _ E)).
  destruct (node_is_empty ncur).
  - by rewrite (bind_run _ _ _ _ _ (erase_child_without _ _ _ _ Ep)).
  - done.
Qed.

Lemma cloned_path_frame (h0 h h1 : heap) root0 path top a :
  cloned_path h0 h root0 path top a →
  (∀ x, x < top → h1 !! x = h !! x) →
  cloned_path h0 h1 root0 path top a.
Proof.
  revert top a. induction path as [|[p c] path IH]; intros top a; [done|].
  simpl. intros (ap & np & E0 & Ec & Ep & Hp0 & Hlt & Hcp) Hf.
  exists ap, np. rewrite Hf by done. repeat split; try done.
  apply IH; [done|]. intros x Hx. apply Hf. lia.
Qed.

Lemma removed_frame (h0 h h1 : heap) k :
  ∀ a q, removed h0 h a k q →
    (∀ x, q ≤ x → h1 !! x = h !! x) →
    removed h0 h1 a k q.
Proof.
  induction k as [|c k IH]; intros a q; simpl.
  - intros (n & E0 & Eq) Hf. exists n. by rewrite Hf.
  - intros (n & child & q' & nq' & E0 & Ec & Hlt & Hr & Eq' & Eq) Hf.
    exists n, child, q', nq'. rewrite !Hf by lia. repeat split; try done.
    apply IH; [done|]. intros x Hx. apply Hf. lia.
Qed.

Lemma removed_lookup (h0 h' : heap) k a q :
  removed h0 h' a k q → is_Some (h' !! q).
Proof.
  destruct k as [|c k]; simpl.
  - intros (n & _ & E). eauto.
  - intros (n & child & q' & nq' & _ & _ & _ & _ & _ & E). eauto.
Qed.

(** The loop of [Remove] stops where the old trie has no node for the
    key, and otherwise arrives at a copy of that node, over a stack of
    copies. *)
Lemma Remove_loop_spec (h0 : heap) root0 k :
  heap_closed h0 →
  ∀ current path (h : heap) a n,
    h0 `prefix_of` h → heap_closed h →
    length h0 ≤ current → h0 !! a = Some n → h !! current = Some n →
    cloned_path h0 h root0 path current a →
    match find_node h0 k a with
    | None =>
        ∃ h', Remove_loop k current path h = Some (None, h')
          ∧ h0 `prefix_of` h' ∧ heap_closed h'
    | Some b =>
        ∃ h' cur' path' nb,
          Remove_loop k current path h = Some (Some (cur', path'), h')
          ∧ h0 `prefix_of` h' ∧ heap_closed h'
          ∧ length h0 ≤ cur' ∧ h0 !! b = Some nb ∧ h' !! cur' = Some nb
          ∧ cloned_path h0 h' root0 path' cur' b
          ∧ path_root path' cur' = path_root path current
          ∧ rev (map snd path') = rev (map snd path) ++ k
    end.
Proof.
  intros Hc0.
  induction k as [|c k IH]; intros current path h a n Hp Hc Hcur E0 E Hcp.
  - simpl. exists h, current, path, n. rewrite app_nil_r. done.
  - rewrite (Remove_loop_cons _ _ _ _ _ _ E). simpl find_node. rewrite E0.
    destruct (children_ n !! c) as [child|] eqn:Ech; [|by exists h].
    pose proof (heap_closed_lookup _ _ _ _ _ Hc0 E0 Ech) as Hchild.
    destruct (lookup_lt_is_Some_2 h0 child Hchild) as [cn Ecn].
    rewrite (heap_prefix_lookup _ _ _ Hp Hchild), Ecn, Clone_same.
    pose proof (prefix_length _ _ Hp) as Hlen.
    pose proof (lookup_lt_Some _ _ _ E) as Hcurlt.
    set (h1 := <[current := with_child c (length h) n]> (h ++ [cn])).
    assert (Hc1 : heap_closed h1).
    { apply heap_closed_store.
      - apply heap_closed_alloc; [done|]. intros c' q Hq.
        pose proof (heap_closed_lookup _ _ _ _ _ Hc0 Ecn Hq). lia.
      - intros c' q. simpl. rewrite length_app. simpl. intros Hq.
        apply lookup_insert_Some in Hq as [[_ <-]|[_ Hq]]; [lia|].
        pose proof (heap_closed_lookup _ _ _ _ _ Hc E Hq). lia. }
    specialize (IH (length h) ((current, c) :: path) h1 child cn).
    assert (Hpre : rev (map snd ((current, c) :: path)) ++ k
                   = rev (map snd path) ++ c :: k).
    { simpl. by rewrite <- app_assoc. }
    rewrite Hpre in IH. simpl path_root in IH.
    assert (Hp1 : h0 `prefix_of` h1).
    { unfold h1. by apply prefix_store; [apply prefix_app_r|]. }
    assert (Enew : h1 !! length h = Some cn).
    { unfold h1. rewrite list_lookup_insert_ne by lia.
      by rewrite lookup_app_r, Nat.sub_diag. }
    assert (Hcp1 : cloned_path h0 h1 root0 ((current, c) :: path) (length h) child).
    { simpl. exists a, n. repeat split; try done.
      - unfold h1. apply list_lookup_insert_eq. rewrite length_app. simpl. lia.
      - eapply cloned_path_frame; [exact Hcp|]. intros x Hx. unfold h1.
        rewrite list_lookup_insert_ne by lia. apply lookup_app_l. lia. }
    exact (IH Hp1 Hc1 Hlen Ecn Enew Hcp1).
Qed.

(** The unwinding of [Remove], from a finished copy [current] down to
    the root. *)
Lemma Remove_unwind_spec (h0 : heap) root0 :
  ∀ path current (h : heap) a krest,
    h0 `prefix_of` h → heap_closed h →
    cloned_path h0 h root0 path current a →
    removed h0 h a krest current →
    ∃ h', Remove_unwind path current h = Some ((), h')
      ∧ h0 `prefix_of` h' ∧ heap_closed h'
      ∧ removed h0 h' root0 (rev (map snd path) ++ krest)
          (path_root path current).
Proof.
  induction path as [|[p c] path IH]; intros current h a krest Hp Hc Hcp Hr.
  - simpl in Hcp. subst a. exists h. done.
  - simpl in Hcp. destruct Hcp as (ap & np & E0 & Ec & Ep & Hp0 & Hlt & Hcp).
    destruct (removed_lookup _ _ _ _ _ Hr) as [ncur Ecur].
    rewrite (Remove_unwind_cons _ _ _ _ _ _ _ Ecur Ep).
    set (h2 := if node_is_empty ncur
               then <[p := without_child c (with_child c current np)]> h
               else h).
    assert (Hp2 : h0 `prefix_of` h2).
    { unfold h2. destruct (node_is_empty ncur); [|done]. by apply prefix_store. }
    assert (Hc2 : heap_closed h2).
    { unfold h2. destruct (node_is_empty ncur); [|done].
      apply heap_closed_store; [done|]. intros c' q. simpl. intros Hq.
      apply lookup_delete_Some in Hq as [_ Hq].
      eapply heap_closed_lookup; [exact Hc|exact Ep|exact Hq]. }
    assert (Hf2 : ∀ x, x ≠ p → h2 !! x = h !! x).
    { intros x Hx. unfold h2. destruct (node_is_empty ncur); [|done].
      by rewrite list_lookup_insert_ne. }
    assert (Ep2 : h2 !! p = Some (if node_is_empty ncur then without_child c np
                                  else with_child c current np)).
    { unfold h2. destruct (node_is_empty ncur); [|done].
      rewrite list_lookup_insert_eq by by eapply lookup_lt_Some.
      unfold without_child, with_child. simpl. by rewrite delete_insert_eq. }
    destruct (IH p h2 ap (c :: krest)) as (h' & Erun & Hp' & Hc' & Hr').
    + done.
    + done.
    + eapply cloned_path_frame; [exact Hcp|]. intros x Hx. apply Hf2. lia.
    + simpl. exists np, a, current, ncur. repeat split; try done.
      * eapply removed_frame; [exact Hr|]. intros x Hx. apply Hf2. lia.
      * rewrite Hf2 by lia. done.
    + exists h'. simpl. rewrite <- app_assoc. done.
Qed.

(** What [Remove] returns on a trie with a root: it always returns;
    either the key is not stored and the result is the trie itself, or
    the result is the pruned copy of the path. *)
Lemma Remove_spec k root (h : heap) :
  heap_closed h → root < length h →
  ∃ t' h', Remove k (Some root) h = Some (t', h')
    ∧ h `prefix_of` h' ∧ heap_closed h' ∧ trie_wf h' t'
    ∧ ((¬ stored h (Some root) k ∧ t' = Some root)
       ∨ (stored h (Some root) k
          ∧ ∃ q nq, length h ≤ q ∧ removed h h' root k q ∧ h' !! q = Some nq
              ∧ t' = if node_is_empty nq then None else Some q)).
Proof.
  intros Hc Hroot. destruct (lookup_lt_is_Some_2 h root Hroot) as [rn Ern].
  unfold Remove. rewrite (bind_run _ _ _ _ _ (load_run _ _ _ Ern)).
  rewrite (bind_run _ _ _ _ _ (alloc_run _ _)), Clone_same.
  assert (Hc1 : heap_closed (h ++ [rn])).
  { apply heap_closed_alloc; [done|]. intros c q Hq.
    pose proof (heap_closed_lookup _ _ _ _ _ Hc Ern Hq). lia. }
  assert (Enew : (h ++ [rn]) !! length h = Some rn)
    by by rewrite lookup_app_r, Nat.sub_diag.
  pose proof (Remove_loop_spec h root k Hc (length h) [] (h ++ [rn]) root rn
    (prefix_app_r _ _ _ (reflexivity h)) Hc1 (le_n _) Ern Enew eq_refl) as Hloop.
  assert (Hwf : ∀ h2 : heap, h `prefix_of` h2 → trie_wf h2 (Some root)).
  { intros h2 Hp2. simpl. apply prefix_length in Hp2. lia. }
  destruct (find_node h k root) as [b|] eqn:Eb.
  - destruct Hloop as (h2 & cur & path & nb & Erun & Hp2 & Hc2 & Hcur & Eb0
                      & Ecur & Hcp & Hroot' & Hkeys).
    simpl in Hroot', Hkeys.
    rewrite (bind_run _ _ _ _ _ Erun).
    rewrite (bind_run _ _ _ _ _ (load_run _ _ _ Ecur)).
    destruct (is_value_node_ nb) eqn:Hv; simpl.
    + (* the key is stored *)
      rewrite (bind_run _ _ _ _ _ (set_is_value_node_run _ _ false _ Ecur)).
      set (h3 := <[cur := mkTrieNode (children_ nb) false (node_class nb)]> h2).
      pose proof (lookup_lt_Some _ _ _ Ecur) as Hcurlt.
      assert (Hp3 : h `prefix_of` h3) by by apply prefix_store.
      assert (Hc3 : heap_closed h3).
      { apply heap_closed_store; [done|]. intros c q. simpl. intros Hq.
        eapply heap_closed_lookup; [exact Hc2|exact Ecur|exact Hq]. }
      assert (Hcp3 : cloned_path h h3 root path cur b).
      { eapply cloned_path_frame; [exact Hcp|]. intros x Hx. unfold h3.
        apply list_lookup_insert_ne. lia. }
      assert (Hr3 : removed h h3 b [] cur).
      { simpl. exists nb. split; [done|]. unfold h3.
        by apply list_lookup_insert_eq. }
      destruct (Remove_unwind_spec h root path cur h3 b [] Hp3 Hc3 Hcp3 Hr3)
        as (h4 & Erun4 & Hp4 & Hc4 & Hr4).
      rewrite app_nil_r, Hkeys, Hroot' in Hr4.
      rewrite (bind_run _ _ _ _ _ Erun4).
      destruct (removed_lookup _ _ _ _ _ Hr4) as [nq Enq].
      rewrite (bind_run _ _ _ _ _ (load_run _ _ _ Enq)).
      exists (if node_is_empty nq then None else Some (length h)), h4.
      split; [by destruct (node_is_empty nq)|].
      split; [done|]. split; [done|]. split.
      { destruct (node_is_empty nq); simpl; [done|]. by eapply lookup_lt_Some. }
      right. split.
      { exists b, nb. simpl. done. }
      exists (length h), nq. done.
    + (* the landing node is not a value node *)
      exists (Some root), h2. split; [done|]. split; [done|]. split; [done|].
      split; [by apply Hwf|]. left. split; [|done].
      intros (q & n & Eq & En & Hn). simpl in Eq. rewrite Eb in Eq.
      injection Eq as <-. rewrite Eb0 in En. injection En as <-. congruence.
  - destruct Hloop as (h2 & Erun & Hp2 & Hc2).
    rewrite (bind_run _ _ _ _ _ Erun).
    exists (Some root), h2. split; [done|]. split; [done|]. split; [done|].
    split; [by apply Hwf|]. left. split; [|done].
    intros (q & n & Eq & _). simpl in Eq. congruence.
Qed.

(** ** What the pruned copy answers *)

Lemma value_from_nil T (h : heap) q :
  value_from T h [] q = match h !! q with Some n => value_at T n | None => None end.
Proof. done. Qed.

Lemma value_from_cons T (h : heap) c k q :
  value_from T h (c :: k) q =
    match h !! q with
    | Some n => match children_ n !! c with
                | Some x => value_from T h k x
                | None => None
                end
    | None => None
    end.
Proof.
  unfold value_from. simpl. destruct (h !! q) as [n|]; [|done].
  by destruct (children_ n !! c).
Qed.

Lemma value_from_prefix T (h0 h : heap) k x :
  heap_closed h0 → h0 `prefix_of` h → x < length h0 →
  value_from T h k x = value_from T h0 k x.
Proof.
  intros Hc Hp Hx. unfold value_from.
  rewrite (find_node_prefix _ _ _ _ Hc Hp Hx).
  destruct (find_node h0 k x) as [y|] eqn:Ey; [|done].
  by rewrite (heap_prefix_lookup _ _ _ Hp (find_node_lt _ _ _ _ Hc Hx Ey)).
Qed.

Lemma node_is_empty_with_child c q n : node_is_empty (with_child c q n) = false.
Proof.
  unfold node_is_empty. simpl. rewrite bool_decide_eq_false_2; [done|].
  apply insert_non_empty.
Qed.

(** The removed key is absent from the copy. *)
Lemma removed_absent T (h0 h' : heap) k :
  ∀ a q, removed h0 h' a k q → value_from T h' k q = None.
Proof.
  induction k as [|c k IH]; intros a q; simpl.
  - intros (n & _ & Eq). by rewrite value_from_nil, Eq.
  - intros (n & child & q' & nq' & _ & _ & _ & Hr & _ & Eq).
    rewrite value_from_cons, Eq. destruct (node_is_empty nq'); simpl.
    + by rewrite lookup_delete_eq.
    + rewrite lookup_insert_eq. eauto.
Qed.

(** Every other key is answered by the copy as by the old node; and
    where the copy came out empty, the old node had nothing else. *)
Lemma removed_other T (h0 h' : heap) k :
  heap_closed h0 → h0 `prefix_of` h' →
  ∀ a q nq, removed h0 h' a k q → h' !! q = Some nq →
    ∀ k', k' ≠ k →
      if node_is_empty nq then value_from T h0 k' a = None
      else value_from T h' k' q = value_from T h0 k' a.
Proof.
  intros Hc Hp.
  assert (Hside : ∀ (n : TrieNode) a c' k'' (ch : gmap ascii loc) b,
    h0 !! a = Some n → ch !! c' = children_ n !! c' →
    if bool_decide (ch = ∅) && b
    then value_from T h0 (c' :: k'') a = None
    else match ch !! c' with
         | Some x => value_from T h' k'' x
         | None => None
         end = value_from T h0 (c' :: k'') a).
  { intros n a c' k'' ch b E0 Ech. rewrite value_from_cons, E0, <- Ech.
    destruct (bool_decide (ch = ∅) && b) eqn:Hb.
    - apply andb_true_iff in Hb as [Hb _]. apply bool_decide_eq_true in Hb.
      by rewrite Hb, lookup_empty.
    - destruct (ch !! c') as [x|] eqn:Ex; [|done].
      apply value_from_prefix; [done..|].
      rewrite Ech in Ex. eapply heap_closed_lookup; eauto. }
  induction k as [|c k IH]; intros a q nq Hr Eq k' Hne.
  - simpl in Hr. destruct Hr as (n & E0 & Eq').
    rewrite Eq in Eq'. injection Eq' as ->.
    destruct k' as [|c' k'']; [done|].
    rewrite (value_from_cons T h'), Eq. unfold node_is_empty. simpl.
    by apply (Hside n).
  - simpl in Hr.
    destruct Hr as (n & child & q' & nq' & E0 & Ech & Hlt & Hr & Eq' & Eq2).
    rewrite Eq in Eq2. injection Eq2 as ->.
    destruct k' as [|c' k''].
    + (* the node itself: flag and class are those of the old node *)
      rewrite value_from_nil, value_from_nil, Eq, E0.
      assert (Hsame : ∀ m : TrieNode,
        is_value_node_ m = is_value_node_ n → node_class m = node_class n →
        if node_is_empty m then value_at T n = None
        else value_at T m = value_at T n).
      { intros m Hv Hcl. unfold node_is_empty, value_at. rewrite Hv, Hcl.
        destruct (is_value_node_ n); simpl.
        - by rewrite andb_false_r.
        - by destruct (bool_decide _). }
      destruct (node_is_empty nq'); by apply Hsame.
    + rewrite (value_from_cons T h'), Eq.
      destruct (decide (c' = c)) as [->|Hc'].
      * assert (Hk : k'' ≠ k) by congruence.
        specialize (IH child q' nq' Hr Eq' k'' Hk).
        rewrite (value_from_cons T h0), E0, Ech.
        destruct (node_is_empty nq') eqn:Hempty.
        -- simpl. rewrite lookup_delete_eq.
           by destruct (node_is_empty (without_child c n)).
        -- rewrite node_is_empty_with_child. simpl.
           by rewrite lookup_insert_eq.
      * destruct (node_is_empty nq'); unfold node_is_empty; simpl.
        -- apply (Hside n); [done|]. by rewrite lookup_delete_ne.
        -- apply (Hside n); [done|]. by rewrite lookup_insert_ne.
Qed.

(** A landing node that still has children stays in the copy, with
    those children and without its value. *)
Lemma removed_keeps_branching (h0 h' : heap) k :
  ∀ a q b nb, removed h0 h' a k q →
    find_node h0 k a = Some b → h0 !! b = Some nb → children_ nb ≠ ∅ →
    (∀ nq, h' !! q = Some nq → node_is_empty nq = false)
    ∧ ∃ qk, find_node h' k q = Some qk
        ∧ h' !! qk = Some (mkTrieNode (children_ nb) false (node_class nb)).
Proof.
  induction k as [|c k IH]; intros a q b nb Hr Eb Enb Hch.
  - simpl in Hr, Eb. injection Eb as <-. destruct Hr as (n & E0 & Eq).
    rewrite Enb in E0. injection E0 as <-. split.
    + intros nq Enq. rewrite Eq in Enq. injection Enq as <-.
      unfold node_is_empty. simpl. by rewrite bool_decide_eq_false_2.
    + exists q. done.
  - simpl in Hr.
    destruct Hr as (n & child & q' & nq' & E0 & Ech & Hlt & Hr & Eq' & Eq).
    simpl in Eb. rewrite E0, Ech in Eb.
    destruct (IH child q' b nb Hr Eb Enb Hch) as (Hne & qk & Eqk & Enk).
    rewrite (Hne nq' Eq') in Eq. split.
    + intros nq Enq. rewrite Eq in Enq. injection Enq as <-.
      apply node_is_empty_with_child.
    + exists qk. simpl. rewrite Eq. simpl. by rewrite lookup_insert_eq.
Qed.

(** A node of the path that is gone from the copy had, in the old trie,
    no value of another key and no child away from the path. *)
Lemma removed_pruned (h0 h' : heap) k :
  ∀ a q nq, removed h0 h' a k q → h' !! q = Some nq →
    ∀ k1 b nb, k1 `prefix_of` k →
      node_is_empty nq = true ∨ find_node h' k1 q = None →
      find_node h0 k1 a = Some b → h0 !! b = Some nb →
      (k1 ≠ k → is_value_node_ nb = false)
      ∧ (∀ c' x, children_ nb !! c' = Some x → k1 ++ [c'] `prefix_of` k).
Proof.
  induction k as [|c k IH]; intros a q nq Hr Eq k1 b nb Hpre Hgone Eb Enb.
  - apply prefix_nil_inv in Hpre as ->. simpl in Hr, Eb. injection Eb as <-.
    destruct Hr as (n & E0 & Eq'). rewrite Enb in E0. injection E0 as <-.
    rewrite Eq in Eq'. injection Eq' as ->.
    destruct Hgone as [Hempty|?]; [|done].
    unfold node_is_empty in Hempty. simpl in Hempty.
    apply andb_true_iff in Hempty as [Hempty _].
    apply bool_decide_eq_true in Hempty.
    split; [done|]. intros c' x. by rewrite Hempty, lookup_empty.
  - simpl in Hr.
    destruct Hr as (n & child & q' & nq' & E0 & Ech & Hlt & Hr & Eq' & Eq2).
    rewrite Eq in Eq2. injection Eq2 as ->.
    destruct k1 as [|c1 k1].
    + simpl in Eb. injection Eb as <-. rewrite Enb in E0. injection E0 as <-.
      destruct Hgone as [Hempty|?]; [|done].
      destruct (node_is_empty nq') eqn:Hempty';
        [|by rewrite node_is_empty_with_child in Hempty].
      unfold node_is_empty in Hempty. simpl in Hempty.
      apply andb_true_iff in Hempty as [Hch Hv].
      apply bool_decide_eq_true in Hch. apply negb_true_iff in Hv.
      split; [done|]. intros c' x Hx.
      destruct (decide (c' = c)) as [->|Hne].
      * simpl. apply prefix_cons, prefix_nil.
      * assert (Hd : delete c (children_ nb) !! c' = Some x)
          by by rewrite lookup_delete_ne.
        by rewrite Hch, lookup_empty in Hd.
    + apply prefix_cons_inv_1 in Hpre as Hc1. subst c1.
      apply prefix_cons_inv_2 in Hpre.
      simpl in Eb. rewrite E0, Ech in Eb.
      assert (Hgone' : node_is_empty nq' = true ∨ find_node h' k1 q' = None).
      { destruct (node_is_empty nq') eqn:Hempty'; [by left|]. right.
        destruct Hgone as [Hempty|Hnone].
        - by rewrite node_is_empty_with_child in Hempty.
        - simpl in Hnone. rewrite Eq in Hnone. simpl in Hnone.
          by rewrite lookup_insert_eq in Hnone. }
      destruct (IH child q' nq' Hr Eq' k1 b nb Hpre Hgone' Eb Enb) as [Hv Hch].
      split.
      * intros Hne. apply Hv. congruence.
      * intros c' x Hx. simpl. apply prefix_cons. by eapply Hch.
Qed.

(** ** [Remove] on any trie *)

Lemma trie_wf_prefix (h h' : heap) (t : Trie) :
  trie_wf h t → h `prefix_of` h' → trie_wf h' t.
Proof.
  destruct t as [root|]; [|done]. simpl. intros Hr Hp.
  apply prefix_length in Hp. lia.
Qed.

Lemma Remove_cases k (t : Trie) (h : heap) :
  heap_closed h → trie_wf h t →
  ∃ t' h', Remove k t h = Some (t', h')
    ∧ h `prefix_of` h' ∧ heap_closed h' ∧ trie_wf h' t'
    ∧ ((¬ stored h t k ∧ t' = t) ∨ (stored h t k ∧ t' ≠ t)).
Proof.
  intros Hc Ht. destruct t as [root|].
  - destruct (Remove_spec k root h Hc Ht)
      as (t' & h' & Erun & Hp & Hc' & Ht' & [Hno|[Hst Hq]]).
    + exists t', h'. repeat split; try done. by left.
    + exists t', h'. repeat split; try done. right. split; [done|].
      destruct Hq as (q & nq & Hq & _ & _ & ->).
      destruct (node_is_empty nq); [done|]. simpl in Ht. intros [= ->]. lia.
  - exists None, h. repeat split; try done. left. split; [|done].
    by intros (q & n & Eq & _).
Qed.

(** ** The claims about [Trie] *)

(** C1. Round trip: on every trie (the empty one included) and for every
    key (the empty one included) and value, [Put<T>(k, v)] returns a trie
    on which [Get<T>(k)] returns a non-null pointer to [v]. *)
Theorem Put_Get_roundtrip T k v (t : Trie) (h : heap) :
  heap_closed h → trie_wf h t →
  ∃ t' h', Put T k v t h = Some (t', h')
    ∧ Get T k t' h' = Some (Some v, h').
Proof.
  intros Hc Ht.
  destruct (Put_spec T v k t h Hc Ht) as (r & h' & Erun & Hp & Hc' & Hr & Hr' & Hupd).
  exists (Some r), h'. split; [done|].
  rewrite (Get_run T h' (Some r) k Hc' Hr').
  destruct (updated_find _ _ _ _ _ _ _ Hupd) as (vn & ch & Evn & En).
  unfold lookup_value, value_from. rewrite Evn, En.
  unfold value_at. simpl. by rewrite decide_True.
Qed.

(** C2. Structural sharing: [Put(k2, v2)] leaves every node of the old
    heap as it was, and in the trie it returns every key that is off the
    path of [k2] (not a prefix of [k2]) has the node it had in the old
    trie, the same address, while the nodes on the path are new ones.  In
    particular a key [k1] whose first character is not the first character
    of [k2] keeps its node, and so the whole subtree under it. *)
Theorem Put_structural_sharing T k2 v2 (t : Trie) (h : heap) :
  heap_closed h → trie_wf h t →
  ∃ t' h', Put T k2 v2 t h = Some (t', h')
    ∧ (∀ a n, h !! a = Some n → h' !! a = Some n)
    ∧ (∀ k, ¬ k `prefix_of` k2 → node_of h' t' k = node_of h t k)
    ∧ (∀ k q, k `prefix_of` k2 → node_of h' t' k = Some q → length h ≤ q)
    ∧ (∀ c1 k1 q, ¬ [c1] `prefix_of` k2 →
         node_of h t (c1 :: k1) = Some q →
         node_of h' t' (c1 :: k1) = Some q ∧ q < length h
         ∧ h' !! q = h !! q).
Proof.
  intros Hc Ht.
  destruct (Put_spec T v2 k2 t h Hc Ht) as (r & h' & Erun & Hp & Hc' & Hr & Hr' & Hupd).
  exists (Some r), h'. split; [done|].
  assert (Hoff : ∀ k, ¬ k `prefix_of` k2 → node_of h' (Some r) k = node_of h t k).
  { intros k Hk. simpl. by eapply updated_off_path. }
  split; [|split; [done|split]].
  - intros a n Ea. by eapply prefix_lookup_Some.
  - intros k q Hk Eq. eapply updated_fresh; eauto.
  - intros c1 k1 q Hc1 Eq.
    assert (Hk : ¬ (c1 :: k1) `prefix_of` k2).
    { intros Hpre. apply Hc1. etrans; [|exact Hpre].
      apply prefix_cons, prefix_nil. }
    assert (Hq : q < length h).
    { destruct t as [root|]; [|done]. unfold node_of in Eq. simpl in Ht.
      by eapply find_node_lt. }
    split; [by rewrite Hoff|]. split; [done|]. by apply heap_prefix_lookup.
Qed.

(** C4. Removing a key that is not stored (the trie is empty, a character
    of the key has no node, or the landing node is not a value node) is a
    no-op: [Remove] returns the very trie it was called on, equal to it
    under [operator==].  [Remove] always returns, and it returns that same
    trie in no other case. *)
Theorem Remove_absent_is_identity k (t : Trie) (h : heap) :
  heap_closed h → trie_wf h t →
  ∃ t' h', Remove k t h = Some (t', h')
    ∧ (∀ a n, h !! a = Some n → h' !! a = Some n)
    ∧ (¬ stored h t k → t' = t ∧ Trie_eq t' t = true)
    ∧ (stored h t k → Trie_eq t' t = false).
Proof.
  intros Hc Ht.
  destruct (Remove_cases k t h Hc Ht)
    as (t' & h' & Erun & Hp & _ & _ & [[Hno ->]|[Hst Hne]]).
  - exists t, h'. split; [done|]. split; [|split].
    + intros a n Ea. by eapply prefix_lookup_Some.
    + intros _. split; [done|]. unfold Trie_eq. by apply bool_decide_eq_true.
    + done.
  - exists t', h'. split; [done|]. split; [|split].
    + intros a n Ea. by eapply prefix_lookup_Some.
    + done.
    + intros _. unfold Trie_eq. by apply bool_decide_eq_false.
Qed.

(** C8. A key stored with a value of type [U] (so that [Get<U>] finds it)
    and asked for at another type [T] is answered with [nullptr], without
    any error, which is also the answer for every key that has no node in
    the trie. *)
Theorem Get_type_mismatch_is_absence T U k v (t : Trie) (h : heap) :
  heap_closed h → trie_wf h t →
  Get U k t h = Some (Some v, h) → T ≠ U →
  Get T k t h = Some (None, h)
  ∧ ∀ k', node_of h t k' = None → Get T k' t h = Some (None, h).
Proof.
  intros Hc Ht HU Hne. rewrite (Get_run U h t k Hc Ht) in HU.
  injection HU as HU. split.
  - rewrite (Get_run T h t k Hc Ht). f_equal. f_equal.
    unfold lookup_value, value_from in *. destruct t as [root|]; [|done].
    destruct (find_node h k root) as [q|]; [|done].
    destruct (h !! q) as [n|]; [|done]. unfold value_at in *.
    destruct (negb (is_value_node_ n)); [done|].
    destruct (node_class n) as [|U' v']; [done|].
    destruct (decide (U' = U)) as [->|]; [|done].
    by rewrite decide_False.
  - intros k' Hk'. rewrite (Get_run T h t k' Hc Ht). f_equal. f_equal.
    unfold lookup_value, value_from. destruct t as [root|]; [|done].
    simpl in Hk'. by rewrite Hk'.
Qed.

(** C3. Removing a stored key [k] leaves the answer of [Get] for every
    other key as it was and makes [k] itself absent; if the node of [k]
    has children (other stored keys run through it) the node stays, with
    those children and without a value; and a node of the path that is
    gone from the result had no value of another key and no child away
    from the path.  On the trie built by [Put("a", v1)] and
    [Put("ab", v2)], [Remove("ab")] gives a trie where [Get("a")] is [v1]
    and [Get("ab")] is absent. *)
Theorem Remove_preserves_and_prunes :
  (∀ k (t : Trie) (h : heap),
     heap_closed h → trie_wf h t → stored h t k →
     ∃ t' h', Remove k t h = Some (t', h')
       ∧ (∀ T k', k' ≠ k →
            ∃ r, Get T k' t h = Some (r, h) ∧ Get T k' t' h' = Some (r, h'))
       ∧ (∀ T, Get T k t' h' = Some (None, h'))
       ∧ (∀ b nb, node_of h t k = Some b → h !! b = Some nb →
            children_ nb ≠ ∅ →
            ∃ q, node_of h' t' k = Some q
              ∧ h' !! q = Some (mkTrieNode (children_ nb) false (node_class nb)))
       ∧ (∀ k1 b nb, k1 `prefix_of` k → node_of h' t' k1 = None →
            node_of h t k1 = Some b → h !! b = Some nb →
            (k1 ≠ k → is_value_node_ nb = false)
            ∧ (∀ c' x, children_ nb !! c' = Some x → k1 ++ [c'] `prefix_of` k)))
  ∧ (∀ T v1 v2, ∃ t1 h1 t2 h2 t3 h3,
       Put T ["a"%char] v1 None [] = Some (t1, h1)
       ∧ Put T ["a"%char; "b"%char] v2 t1 h1 = Some (t2, h2)
       ∧ Remove ["a"%char; "b"%char] t2 h2 = Some (t3, h3)
       ∧ Get T ["a"%char] t3 h3 = Some (Some v1, h3)
       ∧ Get T ["a"%char; "b"%char] t3 h3 = Some (None, h3)).
Proof.
  split.
  - intros k t h Hc Ht Hst.
    destruct t as [root|]; [|by destruct Hst as (q & n & Eq & _)].
    destruct (Remove_spec k root h Hc Ht)
      as (t' & h' & Erun & Hp & Hc' & Ht' & [[Hno _]|[_ Hq]]); [done|].
    destruct Hq as (q & nq & Hq & Hr & Enq & Et').
    exists t', h'. split; [done|]. split; [|split; [|split]].
    + intros T k' Hne. exists (lookup_value T h (Some root) k').
      split; [by apply Get_run|]. rewrite (Get_run T h' t' k' Hc' Ht').
      f_equal. f_equal.
      pose proof (removed_other T h h' k Hc Hp root q nq Hr Enq k' Hne) as Ho.
      subst t'. by destruct (node_is_empty nq).
    + intros T. rewrite (Get_run T h' t' k Hc' Ht'). f_equal. f_equal.
      subst t'. destruct (node_is_empty nq); [done|]. simpl.
      by eapply removed_absent.
    + intros b nb Eb Enb Hch. simpl in Eb.
      destruct (removed_keeps_branching h h' k root q b nb Hr Eb Enb Hch)
        as (Hne & qk & Eqk & Enk).
      subst t'. rewrite (Hne nq Enq). by exists qk.
    + intros k1 b nb Hpre Hgone Eb Enb. simpl in Eb.
      eapply (removed_pruned h h' k root q nq Hr Enq k1 b nb); try done.
      subst t'. destruct (node_is_empty nq); [by left|by right].
  - intros T v1 v2. do 6 eexists.
    split; [reflexivity|]. split; [reflexivity|]. split; [reflexivity|].
    split.
    + vm_compute. destruct (EqDecision0 T T); [reflexivity|congruence].
    + vm_compute. reflexivity.
Qed.

(** ** [TrieStore] *)

Lemma size_t_minus_one_eq : size_t_minus_one = (size_t_modulus - 1)%Z.
Proof. reflexivity. Qed.

Lemma vec_size_snoc {A} (l : list A) x : vec_size (l ++ [x]) = (vec_size l + 1)%Z.
Proof. unfold vec_size. rewrite length_app. simpl. lia. Qed.

Lemma vec_size_pos {A} (l : list A) : l ≠ [] → (1 ≤ vec_size l)%Z.
Proof. unfold vec_size. destruct l; [done|]. simpl. lia. Qed.

Lemma get_version_eq s :
  snapshots_ s ≠ [] → (vec_size (snapshots_ s) ≤ size_t_modulus)%Z →
  get_version s = (vec_size (snapshots_ s) - 1)%Z.
Proof.
  intros Hne Hb. unfold get_version.
  rewrite bool_decide_eq_false_2 by done.
  pose proof (vec_size_pos _ Hne). unfold size_t_wrap.
  apply Z.mod_small. lia.
Qed.

Lemma store_back (h : heap) s :
  store_wf h s →
  ∃ cur, last (snapshots_ s) = Some cur ∧ trie_wf h cur
    ∧ snapshots_back s h = Some (cur, h).
Proof.
  intros (Hne & _ & Hall). apply last_is_Some in Hne as [cur Ecur].
  exists cur. split; [done|]. split.
  - rewrite Forall_forall in Hall. apply Hall. by apply last_Some_elem_of.
  - unfold snapshots_back. by rewrite Ecur.
Qed.

Lemma store_wf_prefix (h h' : heap) s :
  store_wf h s → h `prefix_of` h' → heap_closed h' → store_wf h' s.
Proof.
  intros (Hne & _ & Hall) Hp Hc'. split; [done|]. split; [done|].
  eapply Forall_impl; [exact Hall|]. intros t Ht. by eapply trie_wf_prefix.
Qed.

Lemma store_wf_append (h h' : heap) s (t : Trie) :
  store_wf h s → h `prefix_of` h' → heap_closed h' → trie_wf h' t →
  store_wf h' (mkTrieStore (snapshots_ s ++ [t])).
Proof.
  intros Hwf Hp Hc' Ht. destruct (store_wf_prefix _ _ _ Hwf Hp Hc') as (_ & _ & Hall).
  split; [|split; [done|]]; simpl.
  - by destruct (snapshots_ s).
  - apply Forall_app. split; [done|]. by constructor.
Qed.

Lemma TrieStore_new_wf : store_wf [] TrieStore_new.
Proof. split; [done|]. split; [apply heap_closed_nil|]. by repeat constructor. Qed.

Lemma TrieStore_Put_spec T k v s (h : heap) :
  store_wf h s →
  ∃ r h',
    TrieStore_Put T k v s h =
      Some ((size_t_wrap (vec_size (snapshots_ s ++ [Some r]) - 1),
             mkTrieStore (snapshots_ s ++ [Some r])), h')
    ∧ h `prefix_of` h' ∧ length h ≤ r
    ∧ store_wf h' (mkTrieStore (snapshots_ s ++ [Some r])).
Proof.
  intros Hwf. destruct (store_back _ _ Hwf) as (cur & Ecur & Hcur & Eback).
  destruct Hwf as (Hne & Hc & Hall).
  destruct (Put_spec T v k cur h Hc Hcur)
    as (r & h' & Erun & Hp & Hc' & Hr & Hr' & _).
  exists r, h'. unfold TrieStore_Put.
  rewrite (bind_run _ _ _ _ _ Eback), (bind_run _ _ _ _ _ Erun).
  split; [done|]. split; [done|]. split; [done|].
  by apply (store_wf_append h).
Qed.

Lemma TrieStore_Remove_spec k s (h : heap) :
  store_wf h s →
  ∃ cur (t' : Trie) h',
    last (snapshots_ s) = Some cur ∧ h `prefix_of` h'
    ∧ ((¬ stored h cur k
        ∧ TrieStore_Remove k s h =
            Some ((size_t_wrap (vec_size (snapshots_ s) - 1), s), h')
        ∧ store_wf h' s)
       ∨ (stored h cur k
          ∧ TrieStore_Remove k s h =
              Some ((size_t_wrap (vec_size (snapshots_ s ++ [t']) - 1),
                     mkTrieStore (snapshots_ s ++ [t'])), h')
          ∧ store_wf h' (mkTrieStore (snapshots_ s ++ [t'])))).
Proof.
  intros Hwf. destruct (store_back _ _ Hwf) as (cur & Ecur & Hcur & Eback).
  pose proof Hwf as (Hne & Hc & Hall).
  destruct (Remove_cases k cur h Hc Hcur)
    as (t' & h' & Erun & Hp & Hc' & Ht' & Hcases).
  exists cur, t', h'. split; [done|]. split; [done|].
  unfold TrieStore_Remove.
  rewrite (bind_run _ _ _ _ _ Eback), (bind_run _ _ _ _ _ Erun).
  destruct Hcases as [[Hno ->]|[Hst Hneq]].
  - left. split; [done|]. unfold Trie_eq. rewrite bool_decide_eq_true_2 by done.
    destruct s. split; [done|]. by eapply store_wf_prefix.
  - right. split; [done|]. unfold Trie_eq. rewrite bool_decide_eq_false_2 by done.
    split; [done|]. by apply (store_wf_append h).
Qed.

Lemma run_op_spec o s (h : heap) :
  store_wf h s →
  ∃ ver s' h', run_op o s h = Some ((ver, s'), h')
    ∧ h `prefix_of` h' ∧ store_wf h' s'
    ∧ snapshots_ s `prefix_of` snapshots_ s'.
Proof.
  intros Hwf. destruct o as [T k v|k]; simpl.
  - destruct (TrieStore_Put_spec T k v s h Hwf) as (r & h' & Erun & Hp & _ & Hwf').
    eexists _, _, h'. split; [exact Erun|]. split; [done|]. split; [done|].
    simpl. by apply prefix_app_r.
  - destruct (TrieStore_Remove_spec k s h Hwf)
      as (cur & t' & h' & _ & Hp & [(_ & Erun & Hwf')|(_ & Erun & Hwf')]).
    + eexists _, _, h'. split; [exact Erun|]. done.
    + eexists _, _, h'. split; [exact Erun|]. split; [done|]. split; [done|].
      simpl. by apply prefix_app_r.
Qed.

Lemma run_ops_spec os :
  ∀ s (h : heap), store_wf h s →
    ∃ s' h', run_ops os s h = Some (s', h')
      ∧ h `prefix_of` h' ∧ store_wf h' s'
      ∧ snapshots_ s `prefix_of` snapshots_ s'.
Proof.
  induction os as [|o os IH]; intros s h Hwf.
  - exists s, h. done.
  - destruct (run_op_spec o s h Hwf) as (ver & s1 & h1 & Erun & Hp & Hwf1 & Hs).
    destruct (IH s1 h1 Hwf1) as (s' & h' & Erun' & Hp' & Hwf' & Hs').
    exists s', h'. simpl. rewrite (bind_run _ _ _ _ _ Erun). simpl.
    split; [done|]. split; [by etrans|]. split; [done|]. by etrans.
Qed.

(** [Get] at a version that names a snapshot. *)
Lemma TrieStore_Get_in_range T k n s (h : heap) (t : Trie) :
  store_wf h s → n ≠ size_t_minus_one → (0 ≤ n)%Z →
  snapshots_ s !! Z.to_nat n = Some t →
  TrieStore_Get T k n s h =
    Some (mkValueGuard t <$> lookup_value T h t k, h).
Proof.
  intros (Hne & Hc & Hall) Hn Hn0 Et. unfold TrieStore_Get.
  rewrite decide_False by done.
  pose proof (lookup_lt_Some _ _ _ Et) as Hlt.
  rewrite decide_False by (unfold vec_size; lia).
  rewrite Et.
  rewrite (bind_run _ _ _ _ _ (Get_run T h t k Hc (Forall_lookup_1 _ _ _ _ Hall Et))).
  by destruct (lookup_value T h t k).
Qed.

(** ** The claims about [TrieStore] *)

(** C5. Version numbers: [TrieStore::Put] returns one more than
    [get_version()] was before the call, and that is the new
    [get_version()]; [TrieStore::Remove] of a key that the newest
    snapshot does not store appends nothing and returns [get_version()]
    as it was. *)
Theorem TrieStore_version_monotone s (h : heap) :
  store_wf h s → (vec_size (snapshots_ s) < size_t_modulus)%Z →
  (∀ T k v, ∃ s' h',
     TrieStore_Put T k v s h = Some ((get_version s + 1, s'), h')%Z
     ∧ get_version s' = (get_version s + 1)%Z)
  ∧ (∀ k cur, last (snapshots_ s) = Some cur → ¬ stored h cur k →
       ∃ h', TrieStore_Remove k s h = Some ((get_version s, s), h')).
Proof.
  intros Hwf Hb. pose proof Hwf as (Hne & _ & _).
  pose proof (vec_size_pos _ Hne) as Hpos.
  rewrite (get_version_eq s Hne) by lia. split.
  - intros T k v.
    destruct (TrieStore_Put_spec T k v s h Hwf) as (r & h' & Erun & _ & _ & Hwf').
    eexists _, h'. rewrite Erun. rewrite vec_size_snoc.
    assert (Hw : size_t_wrap (vec_size (snapshots_ s) + 1 - 1)
                 = (vec_size (snapshots_ s) - 1 + 1)%Z).
    { unfold size_t_wrap. rewrite Z.mod_small; lia. }
    rewrite Hw. split; [done|].
    destruct Hwf' as (Hne' & _ & _). unfold get_version.
    rewrite bool_decide_eq_false_2 by done. simpl.
    by rewrite vec_size_snoc.
  - intros k cur Ecur Hno.
    destruct (TrieStore_Remove_spec k s h Hwf)
      as (cur' & t' & h' & Ecur' & _ & [(_ & Erun & _)|(Hst & _)]).
    + exists h'. rewrite Erun. unfold size_t_wrap. rewrite Z.mod_small by lia.
      done.
    + rewrite Ecur in Ecur'. injection Ecur' as <-. done.
Qed.

(** C6. Snapshots are only appended: whatever calls of [Put] and
    [Remove] follow, they all return, the snapshots the store had are
    still the first snapshots of the store, and [Get<T>(k, n)] for a
    version [n] that the store had returns what it returned before: the
    same snapshot in the guard and the same value. *)
Theorem TrieStore_pinned_version_stable os s (h : heap) :
  store_wf h s → (vec_size (snapshots_ s) < size_t_modulus)%Z →
  ∃ s' h', run_ops os s h = Some (s', h')
    ∧ snapshots_ s `prefix_of` snapshots_ s'
    ∧ ∀ T k n, (0 ≤ n < vec_size (snapshots_ s))%Z →
        ∃ r, TrieStore_Get T k n s h = Some (r, h)
          ∧ TrieStore_Get T k n s' h' = Some (r, h').
Proof.
  intros Hwf Hb.
  destruct (run_ops_spec os s h Hwf) as (s' & h' & Erun & Hp & Hwf' & Hs).
  exists s', h'. split; [done|]. split; [done|].
  intros T k n [Hn0 Hn].
  assert (Hlt : Z.to_nat n < length (snapshots_ s)) by (unfold vec_size in Hn; lia).
  destruct (lookup_lt_is_Some_2 _ _ Hlt) as [t Et].
  assert (Hne : n ≠ size_t_minus_one) by (rewrite size_t_minus_one_eq; lia).
  exists (mkValueGuard t <$> lookup_value T h t k).
  split; [by apply TrieStore_Get_in_range|].
  rewrite (TrieStore_Get_in_range T k n s' h' t Hwf' Hne Hn0
             (prefix_lookup_Some _ _ _ _ Et Hs)).
  destruct Hwf as (_ & Hc & Hall).
  by rewrite (lookup_value_prefix T h h' t k Hc Hp (Forall_lookup_1 _ _ _ _ Hall Et)).
Qed.

(** C7, as the code has it. A version above [get_version()] gives
    [std::nullopt], no value and no error, unless it is
    [static_cast<size_t>(-1)], the value of the default argument, which
    stands for the newest version. *)
Theorem TrieStore_Get_out_of_range T k version s (h : heap) :
  (vec_size (snapshots_ s) ≤ size_t_modulus)%Z →
  is_size_t version → (get_version s < version)%Z →
  version ≠ size_t_minus_one →
  TrieStore_Get T k version s h = Some (None, h).
Proof.
  intros Hb [Hv0 Hv1] Hv Hne. unfold TrieStore_Get.
  rewrite decide_False by done.
  rewrite decide_True; [done|].
  destruct (decide (snapshots_ s = [])) as [E|E].
  - rewrite E. unfold vec_size. simpl. lia.
  - rewrite (get_version_eq s E Hb) in Hv. lia.
Qed.

(** C10. [Put] never is a no-op: the root of the trie it returns is a
    node that did not exist before the call, so that the result is not
    equal, under [operator==], to the trie it was called on, whatever the
    key held before.  [TrieStore::Put] therefore appends a snapshot in
    every call and returns a version above the one before. *)
Theorem Put_never_noop :
  (∀ T k v (t : Trie) (h : heap),
     heap_closed h → trie_wf h t →
     ∃ r h', Put T k v t h = Some (Some r, h')
       ∧ h !! r = None ∧ is_Some (h' !! r)
       ∧ Trie_eq (Some r) t = false)
  ∧ (∀ T k v s (h : heap),
       store_wf h s → (vec_size (snapshots_ s) < size_t_modulus)%Z →
       ∃ ver s' h' t', TrieStore_Put T k v s h = Some ((ver, s'), h')
         ∧ snapshots_ s' = snapshots_ s ++ [t']
         ∧ (get_version s < ver)%Z ∧ get_version s' = ver).
Proof.
  split.
  - intros T k v t h Hc Ht.
    destruct (Put_spec T v k t h Hc Ht) as (r & h' & Erun & _ & _ & Hr & Hr' & _).
    exists r, h'. split; [done|]. split; [by apply lookup_ge_None|].
    split; [by apply lookup_lt_is_Some|].
    unfold Trie_eq. apply bool_decide_eq_false. intros <-. simpl in Ht. lia.
  - intros T k v s h Hwf Hb. pose proof Hwf as (Hne & _ & _).
    pose proof (vec_size_pos _ Hne) as Hpos.
    destruct (TrieStore_Put_spec T k v s h Hwf) as (r & h' & Erun & _ & _ & Hwf').
    eexists _, _, h', (Some r). split; [exact Erun|]. split; [done|].
    rewrite (get_version_eq s Hne) by lia. rewrite vec_size_snoc.
    unfold get_version. simpl.
    rewrite bool_decide_eq_false_2 by by destruct (snapshots_ s).
    rewrite vec_size_snoc. unfold size_t_wrap. rewrite Z.mod_small by lia.
    split; [lia|done].
Qed.

(** ** Further properties of [Put] *)

Lemma lookup_value_nil T (h0 : heap) o :
  lookup_value T h0 o [] = value_at T (old_node h0 o).
Proof.
  destruct o as [a|]; simpl; [|done]. rewrite value_from_nil.
  by destruct (h0 !! a).
Qed.

Lemma lookup_value_cons T (h0 : heap) o c k :
  lookup_value T h0 o (c :: k) =
    match children_ (old_node h0 o) !! c with
    | Some x => value_from T h0 k x
    | None => None
    end.
Proof.
  destruct o as [a|]; simpl; [|done]. rewrite value_from_cons.
  destruct (h0 !! a) as [n|]; simpl; [done|]. by rewrite lookup_empty.
Qed.

Lemma value_at_with_child T c q n : value_at T (with_child c q n) = value_at T n.
Proof. done. Qed.

(** Every key but [k] is answered by the new path as by the old trie. *)
Lemma updated_other T v (h0 h' : heap) k :
  heap_closed h0 → h0 `prefix_of` h' →
  ∀ o q, updated T v h0 h' o k q →
    ∀ T' k', k' ≠ k → value_from T' h' k' q = lookup_value T' h0 o k'.
Proof.
  intros Hc Hp.
  assert (Hside : ∀ T' o c' k'' (ch : gmap ascii loc),
    ch !! c' = children_ (old_node h0 o) !! c' →
    match ch !! c' with
    | Some x => value_from T' h' k'' x
    | None => None
    end = lookup_value T' h0 o (c' :: k'')).
  { intros T' o c' k'' ch ->. rewrite lookup_value_cons.
    destruct (children_ (old_node h0 o) !! c') as [x|] eqn:Ex; [|done].
    apply value_from_prefix; [done..|]. by eapply old_node_children_lt. }
  induction k as [|c k IH]; intros o q Hupd T' k' Hne.
  - destruct k' as [|c' k'']; [done|].
    simpl in Hupd. rewrite value_from_cons, Hupd. simpl. by apply Hside.
  - simpl in Hupd. destruct Hupd as (q' & E & _ & Hupd).
    destruct k' as [|c' k''].
    + by rewrite value_from_nil, E, lookup_value_nil.
    + rewrite value_from_cons, E. simpl.
      destruct (decide (c' = c)) as [->|Hc'].
      * rewrite lookup_insert_eq, lookup_value_cons.
        rewrite (IH _ _ Hupd T' k'') by congruence.
        by destruct (children_ (old_node h0 o) !! c).
      * apply Hside. by rewrite lookup_insert_ne.
Qed.

(** [Put] writes one key only: on the trie it returns, [Get] of every
    other key, at every type, answers what it answered on the trie [Put]
    was called on. *)
Theorem Put_preserves_other_keys T k v (t : Trie) (h : heap) :
  heap_closed h → trie_wf h t →
  ∃ t' h', Put T k v t h = Some (t', h')
    ∧ ∀ T' k', k' ≠ k →
        ∃ r, Get T' k' t h = Some (r, h) ∧ Get T' k' t' h' = Some (r, h').
Proof.
  intros Hc Ht.
  destruct (Put_spec T v k t h Hc Ht) as (r & h' & Erun & Hp & Hc' & Hr & Hr' & Hupd).
  exists (Some r), h'. split; [done|]. intros T' k' Hne.
  exists (lookup_value T' h t k'). split; [by apply Get_run|].
  rewrite (Get_run T' h' (Some r) k' Hc' Hr'). f_equal. f_equal. simpl.
  by eapply updated_other.
Qed.

(** [Put<U>] replaces the type of the key along with its value: whatever
    the key held before, [Get<T>] at another type [T] finds nothing
    afterwards. *)
Theorem Put_overwrites_type T U k v (t : Trie) (h : heap) :
  heap_closed h → trie_wf h t → T ≠ U →
  ∃ t' h', Put U k v t h = Some (t', h')
    ∧ Get T k t' h' = Some (None, h').
Proof.
  intros Hc Ht Hne.
  destruct (Put_spec U v k t h Hc Ht) as (r & h' & Erun & Hp & Hc' & Hr & Hr' & Hupd).
  exists (Some r), h'. split; [done|].
  rewrite (Get_run T h' (Some r) k Hc' Hr').
  destruct (updated_find _ _ _ _ _ _ _ Hupd) as (vn & ch & Evn & En).
  unfold lookup_value, value_from. rewrite Evn, En.
  unfold value_at. simpl. by rewrite decide_False.
Qed.

(** ** How many nodes [Put] and [Remove] make *)

Lemma bind_inv {A B} (m : M TrieNode A) (f : A → M TrieNode B) h b h' :
  bind m f h = Some (b, h') →
  ∃ a h1, m h = Some (a, h1) ∧ f a h1 = Some (b, h').
Proof.
  unfold bind. destruct (m h) as [[a h1]|]; [|done]. intros E. eauto.
Qed.

Lemma load_inv (h : heap) p n h' : load p h = Some (n, h') → h' = h.
Proof. unfold load. destruct (h !! p); [|done]. by intros [= _ <-]. Qed.

Lemma store_length (h : heap) p n u h' :
  store p n h = Some (u, h') → length h' = length h.
Proof.
  unfold store. case_decide; [|done]. intros [= _ <-]. apply length_insert.
Qed.

Lemma alloc_length (h : heap) n p h' :
  alloc n h = Some (p, h') → length h' = S (length h).
Proof. intros [= _ <-]. rewrite length_app. simpl. lia. Qed.

Lemma set_child_length (h : heap) p c q u h' :
  set_child p c q h = Some (u, h') → length h' = length h.
Proof.
  intros E. apply bind_inv in E as (n & h1 & El & Es).
  apply load_inv in El as ->. by eapply store_length.
Qed.

Lemma erase_child_length (h : heap) p c u h' :
  erase_child p c h = Some (u, h') → length h' = length h.
Proof.
  intros E. apply bind_inv in E as (n & h1 & El & Es).
  apply load_inv in El as ->. by eapply store_length.
Qed.

Lemma set_is_value_node_length (h : heap) p b u h' :
  set_is_value_node p b h = Some (u, h') → length h' = length h.
Proof.
  intros E. apply bind_inv in E as (n & h1 & El & Es).
  apply load_inv in El as ->. by eapply store_length.
Qed.

Lemma Put_loop_null_length k :
  ∀ cur path (h : heap) r h',
    Put_loop_null k cur path h = Some (r, h') →
    length h' = length h + length k.
Proof.
  induction k as [|c k IH]; intros cur path h r h' E; simpl in E.
  - injection E as _ <-. simpl. lia.
  - apply bind_inv in E as (p & h1 & Ea & E). apply alloc_length in Ea.
    apply bind_inv in E as (u & h2 & Es & E). apply set_child_length in Es.
    apply IH in E. simpl. lia.
Qed.

Lemma Put_loop_length k :
  ∀ cur path (h : heap) r h',
    Put_loop k cur path h = Some (r, h') →
    length h' = length h + length k.
Proof.
  induction k as [|c k IH]; intros cur path h r h' E; simpl in E.
  - injection E as _ <-. simpl. lia.
  - apply bind_inv in E as (n & h0 & El & E). apply load_inv in El as ->.
    destruct (children_ n !! c) as [child|].
    + apply bind_inv in E as (cn & h0 & El & E). apply load_inv in El as ->.
      apply bind_inv in E as (p & h1 & Ea & E). apply alloc_length in Ea.
      apply bind_inv in E as (u & h2 & Es & E). apply set_child_length in Es.
      apply IH in E. simpl. lia.
    + apply bind_inv in E as (p & h1 & Ea & E). apply alloc_length in Ea.
      apply bind_inv in E as (u & h2 & Es & E). apply set_child_length in Es.
      apply IH in E. simpl. lia.
Qed.

Lemma Put_unwind_length path :
  ∀ cur (h : heap) r h',
    Put_unwind path cur h = Some (r, h') → length h' = length h.
Proof.
  induction path as [|[p c] path IH]; intros cur h r h' E; simpl in E.
  - by injection E as _ <-.
  - apply bind_inv in E as (u & h1 & Es & E). apply set_child_length in Es.
    apply IH in E. lia.
Qed.

Lemma Put_length T k v (t : Trie) (h : heap) t' h' :
  Put T k v t h = Some (t', h') → length h' = length h + length k + 2.
Proof.
  intros E. destruct t as [root|]; simpl in E.
  - apply bind_inv in E as (rn & h0 & El & E). apply load_inv in El as ->.
    apply bind_inv in E as (p & h1 & Ea & E). apply alloc_length in Ea.
    apply bind_inv in E as ([cur path] & h2 & Eloop & E).
    apply Put_loop_length in Eloop.
    apply bind_inv in E as (n & h0 & El & E). apply load_inv in El as ->.
    apply bind_inv in E as (vn & h3 & Ea3 & E). apply alloc_length in Ea3.
    apply bind_inv in E as (r & h4 & Eu & E). apply Put_unwind_length in Eu.
    injection E as _ <-. lia.
  - apply bind_inv in E as (p & h1 & Ea & E). apply alloc_length in Ea.
    apply bind_inv in E as ([cur path] & h2 & Eloop & E).
    apply Put_loop_null_length in Eloop.
    apply bind_inv in E as (n & h0 & El & E). apply load_inv in El as ->.
    apply bind_inv in E as (vn & h3 & Ea3 & E). apply alloc_length in Ea3.
    apply bind_inv in E as (r & h4 & Eu & E). apply Put_unwind_length in Eu.
    injection E as _ <-. lia.
Qed.

Lemma Remove_loop_length k :
  ∀ current path (h : heap) r h',
    Remove_loop k current path h = Some (r, h') →
    length h ≤ length h' ∧ length h' ≤ length h + length k
    ∧ (is_Some r → length h' = length h + length k).
Proof.
  induction k as [|c k IH]; intros current path h r h' E; simpl in E.
  - injection E as _ <-. simpl. lia.
  - apply bind_inv in E as (n & h0 & El & E). apply load_inv in El as ->.
    destruct (children_ n !! c) as [child|].
    + apply bind_inv in E as (cn & h0 & El & E). apply load_inv in El as ->.
      apply bind_inv in E as (p & h1 & Ea & E). apply alloc_length in Ea.
      apply bind_inv in E as (u & h2 & Es & E). apply set_child_length in Es.
      apply IH in E as (H1 & H2 & H3). simpl. split; [lia|]. split; [lia|].
      intros Hr. specialize (H3 Hr). lia.
    + injection E as <- <-. simpl. split; [lia|]. split; [lia|].
      by intros [? ?].
Qed.

Lemma Remove_unwind_length path :
  ∀ current (h : heap) u h',
    Remove_unwind path current h = Some (u, h') → length h' = length h.
Proof.
  induction path as [|[p c] path IH]; intros current h u h' E; simpl in E.
  - by injection E as _ <-.
  - apply bind_inv in E as (n & h0 & El & E). apply load_inv in El as ->.
    apply bind_inv in E as (u1 & h1 & Ee & E). apply IH in E.
    destruct (node_is_empty n).
    + apply erase_child_length in Ee. lia.
    + injection Ee as _ <-. done.
Qed.

Lemma Remove_length k (t : Trie) (h : heap) t' h' :
  Remove k t h = Some (t', h') →
  length h ≤ length h' ∧ length h' ≤ length h + length k + 1
  ∧ (t' ≠ t → length h' = length h + length k + 1).
Proof.
  intros E. destruct t as [root|]; simpl in E;
    [|injection E as <- <-; split; [lia|split; [lia|done]]].
  apply bind_inv in E as (rn & h0 & El & E). apply load_inv in El as ->.
  apply bind_inv in E as (p & h1 & Ea & E). apply alloc_length in Ea.
  apply bind_inv in E as (r & h2 & Eloop & E).
  apply Remove_loop_length in Eloop as (H1 & H2 & H3).
  destruct r as [[current path]|];
    [|injection E as <- <-; split; [lia|split; [lia|done]]].
  specialize (H3 (mk_is_Some _ _ eq_refl)).
  apply bind_inv in E as (n & h0 & El & E). apply load_inv in El as ->.
  destruct (negb (is_value_node_ n));
    [injection E as <- <-; split; [lia|split; [lia|done]]|].
  apply bind_inv in E as (u & h3 & Ef & E). apply set_is_value_node_length in Ef.
  apply bind_inv in E as (u' & h4 & Eu & E). apply Remove_unwind_length in Eu.
  apply bind_inv in E as (nr & h0 & El & E). apply load_inv in El as ->.
  assert (h' = h4) as -> by (destruct (node_is_empty nr); by injection E as _ <-).
  split; [lia|]. split; [lia|]. intros _. lia.
Qed.

(** [Put] copies the path and nothing else: it makes exactly
    [|k| + 2] nodes, the copy of the root (or a new root), one node for
    each character of the key and the value node, whatever the size of
    the trie. *)
Theorem Put_allocates_path_only T k v (t : Trie) (h : heap) :
  heap_closed h → trie_wf h t →
  ∃ t' h', Put T k v t h = Some (t', h')
    ∧ length h' = length h + length k + 2.
Proof.
  intros Hc Ht.
  destruct (Put_spec T v k t h Hc Ht) as (r & h' & Erun & _).
  exists (Some r), h'. split; [done|]. by eapply Put_length.
Qed.

(** [Remove] makes at most [|k| + 1] nodes, and exactly that many when
    it returns another trie than the one it was called on; on the empty
    trie it makes none. *)
Theorem Remove_allocates_path_only k (t : Trie) (h : heap) :
  heap_closed h → trie_wf h t →
  ∃ t' h', Remove k t h = Some (t', h')
    ∧ length h ≤ length h' ∧ length h' ≤ length h + length k + 1
    ∧ (t' ≠ t → length h' = length h + length k + 1)
    ∧ (t = None → h' = h).
Proof.
  intros Hc Ht.
  destruct (Remove_cases k t h Hc Ht) as (t' & h' & Erun & _).
  exists t', h'. split; [done|].
  destruct (Remove_length k t h t' h' Erun) as (H1 & H2 & H3).
  repeat split; try done.
  intros ->. simpl in Erun. by injection Erun as _ <-.
Qed.

(** ** Further properties of [Remove] *)

(** Away from the path the copy has the nodes of the old trie; and where
    the copy came out empty, the old node had no node away from the
    path. *)
Lemma removed_off_path (h0 h' : heap) k :
  heap_closed h0 → h0 `prefix_of` h' →
  ∀ a q nq, removed h0 h' a k q → h' !! q = Some nq →
    ∀ k', ¬ k' `prefix_of` k →
      if node_is_empty nq then find_node h0 k' a = None
      else find_node h' k' q = find_node h0 k' a.
Proof.
  intros Hc Hp.
  assert (Hside : ∀ (n : TrieNode) a c' k'' (ch : gmap ascii loc) b,
    h0 !! a = Some n → ch !! c' = children_ n !! c' →
    if bool_decide (ch = ∅) && b
    then find_node h0 (c' :: k'') a = None
    else match ch !! c' with
         | Some x => find_node h' k'' x
         | None => None
         end = find_node h0 (c' :: k'') a).
  { intros n a c' k'' ch b E0 Ech. simpl. rewrite E0, <- Ech.
    destruct (bool_decide (ch = ∅) && b) eqn:Hb.
    - apply andb_true_iff in Hb as [Hb _]. apply bool_decide_eq_true in Hb.
      by rewrite Hb, lookup_empty.
    - destruct (ch !! c') as [x|] eqn:Ex; [|done].
      apply find_node_prefix; [done..|].
      rewrite Ech in Ex. eapply heap_closed_lookup; eauto. }
  induction k as [|c k IH]; intros a q nq Hr Eq k' Hk'.
  - simpl in Hr. destruct Hr as (n & E0 & Eq').
    rewrite Eq in Eq'. injection Eq' as ->.
    destruct k' as [|c' k'']; [by destruct Hk'; apply prefix_nil|].
    simpl find_node at 2. rewrite Eq. unfold node_is_empty. simpl.
    by apply (Hside n).
  - simpl in Hr.
    destruct Hr as (n & child & q' & nq' & E0 & Ech & Hlt & Hr & Eq' & Eq2).
    rewrite Eq in Eq2. injection Eq2 as ->.
    destruct k' as [|c' k'']; [by destruct Hk'; apply prefix_nil|].
    simpl find_node at 2. rewrite Eq.
    destruct (decide (c' = c)) as [->|Hc'].
    + assert (Hk : ¬ k'' `prefix_of` k)
        by (intros Hpre; apply Hk'; by apply prefix_cons).
      specialize (IH child q' nq' Hr Eq' k'' Hk).
      simpl find_node. rewrite E0, Ech.
      destruct (node_is_empty nq') eqn:Hempty.
      * simpl. rewrite lookup_delete_eq.
        by destruct (node_is_empty (without_child c n)).
      * rewrite node_is_empty_with_child. simpl.
        by rewrite lookup_insert_eq.
    + destruct (node_is_empty nq'); unfold node_is_empty; simpl.
      * apply (Hside n); [done|]. by rewrite lookup_delete_ne.
      * apply (Hside n); [done|]. by rewrite lookup_insert_ne.
Qed.

Lemma node_of_prefix (h0 h : heap) (t : Trie) k :
  heap_closed h0 → h0 `prefix_of` h → trie_wf h0 t →
  node_of h t k = node_of h0 t k.
Proof.
  intros Hc Hp Ht. destruct t as [root|]; [|done]. by apply find_node_prefix.
Qed.

Lemma stored_prefix (h0 h : heap) (t : Trie) k :
  heap_closed h0 → h0 `prefix_of` h → trie_wf h0 t →
  stored h t k → stored h0 t k.
Proof.
  intros Hc Hp Ht (q & n & Eq & En & Hn).
  rewrite (node_of_prefix _ _ _ _ Hc Hp Ht) in Eq.
  exists q, n. split; [done|]. split; [|done].
  rewrite <- En. symmetry. apply heap_prefix_lookup; [done|].
  destruct t as [root|]; [|done]. by eapply find_node_lt.
Qed.

(** [Remove] shares what it does not copy: every key that is off the
    path of [k] has, in the trie that [Remove(k)] returns, the node it had
    before, the same address, or none if it had none. *)
Theorem Remove_structural_sharing k (t : Trie) (h : heap) :
  heap_closed h → trie_wf h t →
  ∃ t' h', Remove k t h = Some (t', h')
    ∧ ∀ k', ¬ k' `prefix_of` k → node_of h' t' k' = node_of h t k'.
Proof.
  intros Hc Ht. destruct t as [root|]; [|by exists None, h].
  destruct (Remove_spec k root h Hc Ht)
    as (t' & h' & Erun & Hp & Hc' & Ht' & [[Hno ->]|[_ Hq]]).
  - exists (Some root), h'. split; [done|]. intros k' _.
    by apply node_of_prefix.
  - destruct Hq as (q & nq & Hq & Hr & Enq & ->).
    exists (if node_is_empty nq then None else Some q), h'.
    split; [done|]. intros k' Hk'.
    pose proof (removed_off_path h h' k Hc Hp root q nq Hr Enq k' Hk') as Ho.
    by destruct (node_is_empty nq).
Qed.

Lemma removed_not_value (h0 h' : heap) k :
  ∀ a q, removed h0 h' a k q →
    ∀ x n, find_node h' k q = Some x → h' !! x = Some n →
      is_value_node_ n = false.
Proof.
  induction k as [|c k IH]; intros a q; simpl.
  - intros (n0 & _ & Eq) x n [= <-] En. rewrite Eq in En. by injection En as <-.
  - intros (n0 & child & q' & nq' & _ & _ & _ & Hr & _ & Eq) x n.
    rewrite Eq. destruct (node_is_empty nq'); simpl.
    + by rewrite lookup_delete_eq.
    + rewrite lookup_insert_eq. eauto.
Qed.

(** [Remove] is idempotent: after [Remove(k)] the key is not stored, so
    that a second [Remove(k)] is the no-op that returns the trie it was
    called on. *)
Theorem Remove_twice k (t : Trie) (h : heap) :
  heap_closed h → trie_wf h t →
  ∃ t1 h1 h2, Remove k t h = Some (t1, h1)
    ∧ ¬ stored h1 t1 k
    ∧ Remove k t1 h1 = Some (t1, h2).
Proof.
  intros Hc Ht.
  assert (Hgo : ∃ t1 h1, Remove k t h = Some (t1, h1)
                  ∧ heap_closed h1 ∧ trie_wf h1 t1 ∧ ¬ stored h1 t1 k).
  { destruct t as [root|].
    - destruct (Remove_spec k root h Hc Ht)
        as (t' & h' & Erun & Hp & Hc' & Ht' & [[Hno ->]|[_ Hq]]).
      + exists (Some root), h'. repeat split; try done.
        intros Hst. apply Hno. by eapply stored_prefix.
      + destruct Hq as (q & nq & Hq & Hr & Enq & ->).
        eexists _, h'. split; [exact Erun|]. split; [done|]. split; [done|].
        intros (x & n & Ex & En & Hn).
        destruct (node_is_empty nq); [done|]. simpl in Ex.
        pose proof (removed_not_value _ _ _ _ _ Hr x n Ex En). congruence.
    - exists None, h. repeat split; try done. by intros (x & n & Ex & _). }
  destruct Hgo as (t1 & h1 & Erun & Hc1 & Ht1 & Hno).
  destruct (Remove_cases k t1 h1 Hc1 Ht1)
    as (t2 & h2 & Erun2 & _ & _ & _ & [[_ ->]|[Hst _]]); [|done].
  by exists t1, h1, h2.
Qed.

(** [Put] and then [Remove] of the same key: the key is gone and every
    other key is answered as by the trie before the [Put]; so the pair
    undoes itself, for [Get], on a key that was not stored. *)
Theorem Put_then_Remove T k v (t : Trie) (h : heap) :
  heap_closed h → trie_wf h t →
  ∃ t1 h1 t2 h2, Put T k v t h = Some (t1, h1)
    ∧ Remove k t1 h1 = Some (t2, h2)
    ∧ (∀ T', Get T' k t2 h2 = Some (None, h2))
    ∧ (∀ T' k', k' ≠ k →
         ∃ r, Get T' k' t h = Some (r, h) ∧ Get T' k' t2 h2 = Some (r, h2)).
Proof.
  intros Hc Ht.
  destruct (Put_spec T v k t h Hc Ht) as (r & h1 & Erun & Hp & Hc1 & Hr & Hr1 & Hupd).
  destruct (Remove_spec k r h1 Hc1 Hr1)
    as (t2 & h2 & Erun2 & Hp2 & Hc2 & Ht2 & [[Hno _]|[_ Hq]]).
  { destruct Hno. destruct (updated_find _ _ _ _ _ _ _ Hupd) as (vn & ch & Evn & En).
    by exists vn, (TrieNodeWithValue_new ch T v). }
  destruct Hq as (q & nq & Hq & Hrem & Enq & ->).
  eexists (Some r), h1, _, h2. split; [done|]. split; [exact Erun2|]. split.
  - intros T'. rewrite (Get_run T' h2 _ k Hc2 Ht2). f_equal. f_equal.
    destruct (node_is_empty nq); [done|]. simpl. by eapply removed_absent.
  - intros T' k' Hne. exists (lookup_value T' h t k').
    split; [by apply Get_run|].
    rewrite (Get_run T' h2 _ k' Hc2 Ht2). f_equal. f_equal.
    pose proof (removed_other T' h1 h2 k Hc1 Hp2 r q nq Hrem Enq k' Hne) as Ho.
    pose proof (updated_other T v h h1 k Hc Hp t r Hupd T' k' Hne) as Hu.
    destruct (node_is_empty nq); simpl; congruence.
Qed.

(** The path that [Put] builds on the empty trie is pruned whole by
    [Remove]. *)
Lemma updated_removed_empty T v (h0 h1 h2 : heap) k :
  ∀ o a q nq, old_node h0 o = TrieNode_default →
    updated T v h0 h1 o k a → removed h1 h2 a k q → h2 !! q = Some nq →
    node_is_empty nq = true.
Proof.
  induction k as [|c k IH]; intros o a q nq Ho Hupd Hrem Enq.
  - simpl in Hupd, Hrem. destruct Hrem as (n & En & Eq).
    rewrite Hupd in En. injection En as <-. rewrite Enq in Eq.
    injection Eq as ->. rewrite Ho. reflexivity.
  - simpl in Hupd, Hrem. destruct Hupd as (a' & Ea & _ & Hupd).
    destruct Hrem as (n & child & q' & nq' & En & Ech & _ & Hrem & Enq' & Eq).
    assert (Hnone : children_ (old_node h0 o) !! c = None)
      by (rewrite Ho; apply lookup_empty).
    rewrite Hnone in Hupd.
    rewrite Ea in En. injection En as <-. rewrite Ho in *. simpl in Ech.
    rewrite lookup_insert_eq in Ech. injection Ech as <-.
    rewrite (IH None a' q' nq' eq_refl Hupd Hrem Enq') in Eq.
    rewrite Enq in Eq. injection Eq as ->.
    unfold node_is_empty, without_child, with_child. simpl.
    rewrite delete_insert_eq, delete_empty. reflexivity.
Qed.

(** A trie that holds one key goes back to the empty trie, the null
    root, when the key is removed: [Remove] prunes the whole path and
    returns [Trie()]. *)
Theorem Put_then_Remove_on_empty T k v (h : heap) :
  heap_closed h →
  ∃ t1 h1 h2, Put T k v None h = Some (t1, h1)
    ∧ Remove k t1 h1 = Some (None, h2).
Proof.
  intros Hc.
  destruct (Put_spec T v k None h Hc I) as (r & h1 & Erun & Hp & Hc1 & Hr & Hr1 & Hupd).
  destruct (Remove_spec k r h1 Hc1 Hr1)
    as (t2 & h2 & Erun2 & Hp2 & Hc2 & Ht2 & [[Hno _]|[_ Hq]]).
  { destruct Hno. destruct (updated_find _ _ _ _ _ _ _ Hupd) as (vn & ch & Evn & En).
    by exists vn, (TrieNodeWithValue_new ch T v). }
  destruct Hq as (q & nq & Hq & Hrem & Enq & ->).
  rewrite (updated_removed_empty T v h h1 h2 k None r q nq eq_refl Hupd Hrem Enq)
    in Erun2.
  by exists (Some r), h1, h2.
Qed.

(** ** No dead nodes *)

Lemma no_dead_nodes_prefix (h0 h : heap) (t : Trie) :
  heap_closed h0 → h0 `prefix_of` h → trie_wf h0 t →
  no_dead_nodes h0 t → no_dead_nodes h t.
Proof.
  intros Hc Hp Ht Hnd k q n Eq En.
  rewrite (node_of_prefix _ _ _ _ Hc Hp Ht) in Eq.
  apply (Hnd k q n Eq). rewrite <- En. symmetry.
  apply heap_prefix_lookup; [done|].
  destruct t as [root|]; [|done]. by eapply find_node_lt.
Qed.

Lemma updated_on_path_alive T v (h0 h' : heap) k :
  ∀ o q, updated T v h0 h' o k q →
    ∀ k1 x n, k1 `prefix_of` k → find_node h' k1 q = Some x →
      h' !! x = Some n → node_is_empty n = false.
Proof.
  induction k as [|c k IH]; intros o q Hupd k1 x n Hpre Ex En.
  - apply prefix_nil_inv in Hpre as ->. simpl in Ex, Hupd.
    injection Ex as <-. rewrite Hupd in En. injection En as <-.
    unfold node_is_empty. simpl. apply andb_false_r.
  - simpl in Hupd. destruct Hupd as (q' & E & _ & Hupd).
    destruct k1 as [|c1 k1].
    + simpl in Ex. injection Ex as <-. rewrite E in En. injection En as <-.
      apply node_is_empty_with_child.
    + apply prefix_cons_inv_1 in Hpre as Hc1. subst c1.
      apply prefix_cons_inv_2 in Hpre.
      simpl in Ex. rewrite E in Ex. simpl in Ex.
      rewrite lookup_insert_eq in Ex. eauto.
Qed.

Lemma removed_on_path_alive (h0 h' : heap) k :
  ∀ a q nq, removed h0 h' a k q → h' !! q = Some nq →
    node_is_empty nq = false →
    ∀ k1 x n, k1 `prefix_of` k → find_node h' k1 q = Some x →
      h' !! x = Some n → node_is_empty n = false.
Proof.
  induction k as [|c k IH]; intros a q nq Hr Enq Hnq k1 x n Hpre Ex En.
  - apply prefix_nil_inv in Hpre as ->. simpl in Ex. injection Ex as <-.
    congruence.
  - destruct k1 as [|c1 k1].
    + simpl in Ex. injection Ex as <-. congruence.
    + apply prefix_cons_inv_1 in Hpre as Hc1. subst c1.
      apply prefix_cons_inv_2 in Hpre. simpl in Hr.
      destruct Hr as (n0 & child & q' & nq' & _ & _ & _ & Hr & Enq' & Eq).
      simpl in Ex. rewrite Eq in Ex.
      destruct (node_is_empty nq') eqn:Hempty; simpl in Ex.
      * by rewrite lookup_delete_eq in Ex.
      * rewrite lookup_insert_eq in Ex. eauto.
Qed.

Lemma Put_alive T k v (t : Trie) (h : heap) :
  heap_closed h → trie_wf h t → no_dead_nodes h t →
  ∃ t' h', Put T k v t h = Some (t', h') ∧ no_dead_nodes h' t'.
Proof.
  intros Hc Ht Hnd.
  destruct (Put_spec T v k t h Hc Ht) as (r & h' & Erun & Hp & Hc' & Hr & Hr' & Hupd).
  exists (Some r), h'. split; [done|]. intros k1 x n Ex En. simpl in Ex.
  destruct (decide (k1 `prefix_of` k)) as [Hpre|Hoff].
  - by eapply updated_on_path_alive.
  - rewrite (updated_off_path T v h h' k Hc Hp t r Hupd k1 Hoff) in Ex.
    apply (Hnd k1 x n Ex). rewrite <- En. symmetry.
    apply heap_prefix_lookup; [done|].
    destruct t as [root|]; [|done]. by eapply find_node_lt.
Qed.

Lemma Remove_alive k (t : Trie) (h : heap) :
  heap_closed h → trie_wf h t → no_dead_nodes h t →
  ∃ t' h', Remove k t h = Some (t', h') ∧ no_dead_nodes h' t'.
Proof.
  intros Hc Ht Hnd. destruct t as [root|]; [|by exists None, h].
  destruct (Remove_spec k root h Hc Ht)
    as (t' & h' & Erun & Hp & Hc' & Ht' & [[Hno ->]|[_ Hq]]).
  - exists (Some root), h'. split; [done|].
    exact (no_dead_nodes_prefix h h' (Some root) Hc Hp Ht Hnd).
  - destruct Hq as (q & nq & Hq & Hr & Enq & ->).
    eexists _, h'. split; [exact Erun|].
    destruct (node_is_empty nq) eqn:Hempty; [done|].
    intros k1 x n Ex En. simpl in Ex.
    destruct (decide (k1 `prefix_of` k)) as [Hpre|Hoff].
    + by eapply removed_on_path_alive.
    + pose proof (removed_off_path h h' k Hc Hp root q nq Hr Enq k1 Hoff) as Ho.
      rewrite Hempty in Ho. rewrite Ho in Ex.
      apply (Hnd k1 x n Ex). rewrite <- En. symmetry.
      apply heap_prefix_lookup; [done|]. by eapply find_node_lt.
Qed.

(** [Put] keeps tries free of dead nodes: if every node of the trie has
    a child or a value, so has every node of the trie that [Put]
    returns. *)
Theorem Put_keeps_no_dead_nodes T k v (t : Trie) (h : heap) :
  heap_closed h → trie_wf h t → no_dead_nodes h t →
  ∃ t' h', Put T k v t h = Some (t', h') ∧ no_dead_nodes h' t'.
Proof.
  intros Hc Ht Hnd.
  destruct (Put_alive T k v t h Hc Ht Hnd) as (t' & h' & Erun & Hnd').
  by exists t', h'.
Qed.

(** [Remove] keeps tries free of dead nodes: what it does not prune
    has a child or a value. *)
Theorem Remove_keeps_no_dead_nodes k (t : Trie) (h : heap) :
  heap_closed h → trie_wf h t → no_dead_nodes h t →
  ∃ t' h', Remove k t h = Some (t', h') ∧ no_dead_nodes h' t'.
Proof.
  intros Hc Ht Hnd.
  destruct (Remove_alive k t h Hc Ht Hnd) as (t' & h' & Erun & Hnd').
  by exists t', h'.
Qed.

(** ** Further properties of [TrieStore] *)

Lemma run_op_grows o s (h : heap) :
  store_wf h s →
  ∃ ver s' h', run_op o s h = Some ((ver, s'), h')
    ∧ store_wf h' s'
    ∧ length (snapshots_ s) ≤ length (snapshots_ s')
    ∧ length (snapshots_ s') ≤ S (length (snapshots_ s)).
Proof.
  intros Hwf. destruct o as [T k v|k]; simpl.
  - destruct (TrieStore_Put_spec T k v s h Hwf) as (r & h' & Erun & _ & _ & Hwf').
    eexists _, _, h'. split; [exact Erun|]. split; [done|].
    simpl. rewrite length_app. simpl. lia.
  - destruct (TrieStore_Remove_spec k s h Hwf)
      as (cur & t' & h' & _ & _ & [(_ & Erun & Hwf')|(_ & Erun & Hwf')]).
    + eexists _, _, h'. split; [exact Erun|]. split; [done|]. lia.
    + eexists _, _, h'. split; [exact Erun|]. split; [done|].
      simpl. rewrite length_app. simpl. lia.
Qed.

Lemma run_ops_grows os :
  ∀ s (h : heap), store_wf h s →
    ∃ s' h', run_ops os s h = Some (s', h')
      ∧ store_wf h' s'
      ∧ length (snapshots_ s) ≤ length (snapshots_ s')
      ∧ length (snapshots_ s') ≤ length (snapshots_ s) + length os.
Proof.
  induction os as [|o os IH]; intros s h Hwf.
  - exists s, h. simpl. split; [done|]. split; [done|]. lia.
  - destruct (run_op_grows o s h Hwf) as (ver & s1 & h1 & Erun & Hwf1 & Hlo & Hhi).
    destruct (IH s1 h1 Hwf1) as (s' & h' & Erun' & Hwf' & Hlo' & Hhi').
    exists s', h'. simpl. rewrite (bind_run _ _ _ _ _ Erun). simpl.
    split; [done|]. split; [done|]. lia.
Qed.

Lemma run_op_alive o s (h : heap) :
  store_wf h s → Forall (no_dead_nodes h) (snapshots_ s) →
  ∃ ver s' h', run_op o s h = Some ((ver, s'), h')
    ∧ h `prefix_of` h' ∧ store_wf h' s'
    ∧ snapshots_ s `prefix_of` snapshots_ s'
    ∧ Forall (no_dead_nodes h') (snapshots_ s').
Proof.
  intros Hwf Hnd.
  destruct (store_back _ _ Hwf) as (cur & Ecur & Hcur & Eback).
  pose proof Hwf as (Hne & Hc & Hall).
  assert (Hcurnd : no_dead_nodes h cur).
  { rewrite Forall_forall in Hnd. apply Hnd. by apply last_Some_elem_of. }
  assert (Hold : ∀ h' : heap, h `prefix_of` h' →
            Forall (no_dead_nodes h') (snapshots_ s)).
  { intros h' Hp. rewrite Forall_forall in Hnd, Hall. apply Forall_forall.
    intros t Ht. eapply no_dead_nodes_prefix; eauto. }
  destruct o as [T k v|k]; simpl.
  - destruct (Put_spec T v k cur h Hc Hcur)
      as (r & h' & Erun & Hp & Hc' & Hr & Hr' & Hupd).
    destruct (Put_alive T k v cur h Hc Hcur Hcurnd)
      as (t'' & h'' & Erun' & Hnd').
    rewrite Erun in Erun'. injection Erun' as <- <-.
    eexists _, _, h'. unfold TrieStore_Put.
    rewrite (bind_run _ _ _ _ _ Eback), (bind_run _ _ _ _ _ Erun).
    split; [done|]. split; [done|].
    split; [by apply (store_wf_append h)|]. simpl.
    split; [by apply prefix_app_r|].
    apply Forall_app. split; [by apply Hold|]. by constructor.
  - destruct (Remove_cases k cur h Hc Hcur)
      as (t' & h' & Erun & Hp & Hc' & Ht' & Hcases).
    destruct (Remove_alive k cur h Hc Hcur Hcurnd)
      as (t'' & h'' & Erun' & Hnd').
    rewrite Erun in Erun'. injection Erun' as <- <-.
    unfold TrieStore_Remove.
    rewrite (bind_run _ _ _ _ _ Eback), (bind_run _ _ _ _ _ Erun).
    destruct Hcases as [[Hno ->]|[Hst Hneq]].
    + unfold Trie_eq. rewrite bool_decide_eq_true_2 by done.
      eexists _, _, h'. split; [done|]. split; [done|].
      split; [by eapply store_wf_prefix|].
      split; [done|]. by apply Hold.
    + unfold Trie_eq. rewrite bool_decide_eq_false_2 by done.
      eexists _, _, h'. split; [done|]. split; [done|].
      split; [by apply (store_wf_append h)|]. simpl.
      split; [by apply prefix_app_r|].
      apply Forall_app. split; [by apply Hold|]. by constructor.
Qed.

Lemma run_ops_alive os :
  ∀ s (h : heap), store_wf h s → Forall (no_dead_nodes h) (snapshots_ s) →
    ∃ s' h', run_ops os s h = Some (s', h')
      ∧ h `prefix_of` h' ∧ store_wf h' s'
      ∧ snapshots_ s `prefix_of` snapshots_ s'
      ∧ Forall (no_dead_nodes h') (snapshots_ s').
Proof.
  induction os as [|o os IH]; intros s h Hwf Hnd.
  - exists s, h. done.
  - destruct (run_op_alive o s h Hwf Hnd)
      as (ver & s1 & h1 & Erun & Hp & Hwf1 & Hs & Hnd1).
    destruct (IH s1 h1 Hwf1 Hnd1) as (s' & h' & Erun' & Hp' & Hwf' & Hs' & Hnd').
    exists s', h'. simpl. rewrite (bind_run _ _ _ _ _ Erun). simpl.
    split; [done|]. split; [by etrans|]. split; [done|].
    split; [by etrans|done].
Qed.

(** Whatever calls of [Put] and [Remove] a new [TrieStore] gets, none of
    them runs into undefined behaviour, the store keeps its snapshots
    valid, version 0 stays the empty trie, for which [Get] finds nothing,
    and no snapshot has a dead node. *)
Theorem TrieStore_reachable_invariant os :
  ∃ s (h : heap), run_ops os TrieStore_new [] = Some (s, h)
    ∧ store_wf h s
    ∧ snapshots_ s !! 0 = Some None
    ∧ (∀ T k, TrieStore_Get T k 0 s h = Some (None, h))
    ∧ Forall (no_dead_nodes h) (snapshots_ s).
Proof.
  destruct (run_ops_alive os TrieStore_new [] TrieStore_new_wf)
    as (s & h & Erun & _ & Hwf & Hs & Hnd).
  { repeat constructor. by intros k q n. }
  exists s, h. split; [done|]. split; [done|].
  assert (E0 : snapshots_ s !! 0 = Some None).
  { eapply prefix_lookup_Some; [|exact Hs]. reflexivity. }
  split; [done|]. split; [|done].
  intros T k. by rewrite (TrieStore_Get_in_range T k 0 s h None Hwf).
Qed.

(** Over any sequence of calls the version never goes down and goes up
    by at most one for each call. *)
Theorem TrieStore_versions_grow_slowly os s (h : heap) :
  store_wf h s →
  (vec_size (snapshots_ s) + Z.of_nat (length os) < size_t_modulus)%Z →
  ∃ s' h', run_ops os s h = Some (s', h')
    ∧ (get_version s ≤ get_version s' ≤ get_version s + Z.of_nat (length os))%Z.
Proof.
  intros Hwf Hb.
  destruct (run_ops_grows os s h Hwf) as (s' & h' & Erun & Hwf' & Hlo & Hhi).
  exists s', h'. split; [done|].
  destruct Hwf as (Hne & _ & _). destruct Hwf' as (Hne' & _ & _).
  rewrite (get_version_eq s Hne), (get_version_eq s' Hne');
    unfold vec_size in *; lia.
Qed.

(** [Get] without a version is [Get] at [get_version()]. *)
Theorem TrieStore_Get_default_is_newest T k s (h : heap) :
  TrieStore_Get_latest T k s h = TrieStore_Get T k (get_version s) s h.
Proof.
  unfold TrieStore_Get_latest, TrieStore_Get, get_version.
  rewrite decide_True by done.
  destruct (bool_decide (snapshots_ s = [])) eqn:Hnil.
  - apply bool_decide_eq_true in Hnil. rewrite Hnil.
    rewrite decide_False by done. by rewrite decide_True.
  - by destruct (decide (size_t_wrap (vec_size (snapshots_ s) - 1)
                         = size_t_minus_one)).
Qed.

(** What a guard holds: when [TrieStore::Get] returns a guard, its root
    is the snapshot of the version asked for (the newest one for the
    default version), the call has changed nothing, and [Trie::Get] on
    that root finds the very value that the guard dereferences to. *)
Theorem TrieStore_Get_guard T k version s (h : heap) g h' :
  store_wf h s →
  TrieStore_Get T k version s h = Some (Some g, h') →
  h' = h
  ∧ snapshots_ s !! Z.to_nat (if decide (version = size_t_minus_one)
                               then get_version s else version)
      = Some (guard_root_ g)
  ∧ Get T k (guard_root_ g) h = Some (Some (ValueGuard_deref g), h).
Proof.
  intros (Hne & Hc & Hall) E. unfold TrieStore_Get in E.
  unfold get_version. rewrite bool_decide_eq_false_2 in * by done.
  set (tv := if decide (version = size_t_minus_one)
             then size_t_wrap (vec_size (snapshots_ s) - 1) else version) in *.
  assert (E' :
    (if decide (vec_size (snapshots_ s) ≤ tv)%Z then ret None
     else match snapshots_ s !! Z.to_nat tv with
          | Some target_trie =>
              value <- Get T k target_trie ;;
              match value with
              | Some v => ret (Some (mkValueGuard target_trie v))
              | None => ret None
              end
          | None => fail
          end) h = Some (Some g, h')).
  { unfold tv. by destruct (decide (version = size_t_minus_one)). }
  clear E. destruct (decide (vec_size (snapshots_ s) ≤ tv)%Z); [done|].
  destruct (snapshots_ s !! Z.to_nat tv) as [t|] eqn:Et; [|done].
  pose proof (Forall_lookup_1 _ _ _ _ Hall Et) as Ht.
  rewrite (bind_run _ _ _ _ _ (Get_run T h t k Hc Ht)) in E'.
  destruct (lookup_value T h t k) as [v|] eqn:Ev; [|done].
  injection E' as <- <-. simpl. split; [done|]. split; [done|].
  by rewrite (Get_run T h t k Hc Ht), Ev.
Qed.

Lemma Put_lookup T k v (t : Trie) (h : heap) :
  heap_closed h → trie_wf h t →
  ∃ r h', Put T k v t h = Some (Some r, h')
    ∧ h `prefix_of` h' ∧ heap_closed h' ∧ length h ≤ r ∧ r < length h'
    ∧ lookup_value T h' (Some r) k = Some v
    ∧ ∀ T' k', k' ≠ k → lookup_value T' h' (Some r) k' = lookup_value T' h t k'.
Proof.
  intros Hc Ht.
  destruct (Put_spec T v k t h Hc Ht) as (r & h' & Erun & Hp & Hc' & Hr & Hr' & Hupd).
  exists r, h'. repeat split; try done.
  - destruct (updated_find _ _ _ _ _ _ _ Hupd) as (vn & ch & Evn & En).
    unfold lookup_value, value_from. rewrite Evn, En.
    unfold value_at. simpl. by rewrite decide_True.
  - intros T' k' Hne. simpl. by eapply updated_other.
Qed.

Lemma Remove_lookup k (t : Trie) (h : heap) :
  heap_closed h → trie_wf h t → stored h t k →
  ∃ t' h', Remove k t h = Some (t', h')
    ∧ h `prefix_of` h' ∧ heap_closed h' ∧ trie_wf h' t' ∧ t' ≠ t
    ∧ (∀ T, lookup_value T h' t' k = None)
    ∧ ∀ T k', k' ≠ k → lookup_value T h' t' k' = lookup_value T h t k'.
Proof.
  intros Hc Ht Hst.
  destruct t as [root|]; [|by destruct Hst as (q & n & Eq & _)].
  destruct (Remove_spec k root h Hc Ht)
    as (t' & h' & Erun & Hp & Hc' & Ht' & [[Hno _]|[_ Hq]]); [done|].
  destruct Hq as (q & nq & Hq & Hr & Enq & Et').
  exists t', h'. split; [done|]. split; [done|]. split; [done|].
  split; [done|]. subst t'. split; [|split].
  - destruct (node_is_empty nq); [done|]. simpl in Ht. intros [= ->]. lia.
  - intros T. destruct (node_is_empty nq); [done|]. simpl.
    by eapply removed_absent.
  - intros T k' Hne.
    pose proof (removed_other T h h' k Hc Hp root q nq Hr Enq k' Hne) as Ho.
    by destruct (node_is_empty nq).
Qed.

Lemma TrieStore_Get_latest_run T k s (h : heap) (t : Trie) :
  store_wf h s → (vec_size (snapshots_ s) < size_t_modulus)%Z →
  last (snapshots_ s) = Some t →
  TrieStore_Get_latest T k s h =
    Some (mkValueGuard t <$> lookup_value T h t k, h).
Proof.
  intros (Hne & Hc & Hall) Hb Et. unfold TrieStore_Get_latest, TrieStore_Get.
  rewrite decide_True by done. rewrite bool_decide_eq_false_2 by done.
  pose proof (vec_size_pos _ Hne) as Hpos.
  assert (Hw : size_t_wrap (vec_size (snapshots_ s) - 1)
               = (vec_size (snapshots_ s) - 1)%Z).
  { unfold size_t_wrap. apply Z.mod_small. lia. }
  rewrite Hw. rewrite decide_False by lia.
  rewrite last_lookup in Et.
  assert (Hidx : Z.to_nat (vec_size (snapshots_ s) - 1)
                 = pred (length (snapshots_ s))) by (unfold vec_size; lia).
  rewrite Hidx, Et.
  rewrite (bind_run _ _ _ _ _ (Get_run T h t k Hc (Forall_lookup_1 _ _ _ _ Hall Et))).
  by destruct (lookup_value T h t k).
Qed.

(** The round trip through the store: after [TrieStore::Put<T>(k, v)]
    the default [Get<T>(k)], and [Get<T>(k, ver)] at the version that
    [Put] returned, give a guard on the new snapshot with the value [v],
    and the default [Get] of every other key gives the value it gave
    before. *)
Theorem TrieStore_Put_then_Get T k v s (h : heap) :
  store_wf h s → (vec_size (snapshots_ s) + 1 < size_t_modulus)%Z →
  ∃ ver s' h' t',
    TrieStore_Put T k v s h = Some ((ver, s'), h')
    ∧ last (snapshots_ s') = Some t'
    ∧ TrieStore_Get_latest T k s' h' = Some (Some (mkValueGuard t' v), h')
    ∧ TrieStore_Get T k ver s' h' = Some (Some (mkValueGuard t' v), h')
    ∧ ∀ T' k', k' ≠ k →
        ∃ r r', TrieStore_Get_latest T' k' s h = Some (r, h)
          ∧ TrieStore_Get_latest T' k' s' h' = Some (r', h')
          ∧ ValueGuard_deref <$> r = ValueGuard_deref <$> r'.
Proof.
  intros Hwf Hb. destruct (store_back _ _ Hwf) as (cur & Ecur & Hcur & Eback).
  pose proof Hwf as (Hne & Hc & Hall).
  pose proof (vec_size_pos _ Hne) as Hpos.
  destruct (Put_lookup T k v cur h Hc Hcur)
    as (r & h' & Erun & Hp & Hc' & Hr & Hr' & Hk & Hother).
  set (s' := mkTrieStore (snapshots_ s ++ [Some r])).
  assert (Hwf' : store_wf h' s') by by apply (store_wf_append h).
  assert (Hb' : (vec_size (snapshots_ s') < size_t_modulus)%Z).
  { unfold s'. simpl. rewrite vec_size_snoc. lia. }
  assert (Elast : last (snapshots_ s') = Some (Some r)) by apply last_snoc.
  exists (size_t_wrap (vec_size (snapshots_ s') - 1)), s', h', (Some r).
  split.
  { unfold TrieStore_Put.
    by rewrite (bind_run _ _ _ _ _ Eback), (bind_run _ _ _ _ _ Erun). }
  split; [done|]. split.
  { by rewrite (TrieStore_Get_latest_run T k s' h' (Some r) Hwf' Hb' Elast), Hk. }
  split.
  { assert (Hw : size_t_wrap (vec_size (snapshots_ s') - 1)
                 = vec_size (snapshots_ s)).
    { unfold s'. simpl. rewrite vec_size_snoc. unfold size_t_wrap.
      rewrite Z.mod_small; lia. }
    rewrite Hw.
    rewrite (TrieStore_Get_in_range T k _ s' h' (Some r) Hwf').
    - by rewrite Hk.
    - rewrite size_t_minus_one_eq. lia.
    - lia.
    - unfold s', vec_size. simpl. rewrite Nat2Z.id.
      by rewrite lookup_app_r, Nat.sub_diag. }
  intros T' k' Hne'.
  exists (mkValueGuard cur <$> lookup_value T' h cur k'),
         (mkValueGuard (Some r) <$> lookup_value T' h' (Some r) k').
  split; [apply TrieStore_Get_latest_run; [done|lia|done]|].
  split; [by apply TrieStore_Get_latest_run|].
  rewrite (Hother T' k' Hne'). by destruct (lookup_value T' h cur k').
Qed.

(** [TrieStore::Remove] of a key that the newest snapshot stores returns
    one more than [get_version()] was, which is the new
    [get_version()]; afterwards the default [Get] finds nothing for the
    key, at any type, and gives for every other key the value it gave
    before. *)
Theorem TrieStore_Remove_stored k s (h : heap) (cur : Trie) :
  store_wf h s → (vec_size (snapshots_ s) + 1 < size_t_modulus)%Z →
  last (snapshots_ s) = Some cur → stored h cur k →
  ∃ s' h',
    TrieStore_Remove k s h = Some ((get_version s + 1, s'), h')%Z
    ∧ get_version s' = (get_version s + 1)%Z
    ∧ (∀ T, TrieStore_Get_latest T k s' h' = Some (None, h'))
    ∧ ∀ T' k', k' ≠ k →
        ∃ r r', TrieStore_Get_latest T' k' s h = Some (r, h)
          ∧ TrieStore_Get_latest T' k' s' h' = Some (r', h')
          ∧ ValueGuard_deref <$> r = ValueGuard_deref <$> r'.
Proof.
  intros Hwf Hb Ecur Hst.
  destruct (store_back _ _ Hwf) as (cur' & Ecur' & Hcur & Eback).
  rewrite Ecur in Ecur'. injection Ecur' as <-.
  pose proof Hwf as (Hne & Hc & Hall).
  pose proof (vec_size_pos _ Hne) as Hpos.
  destruct (Remove_lookup k cur h Hc Hcur Hst)
    as (t' & h' & Erun & Hp & Hc' & Ht' & Hneq & Hk & Hother).
  set (s' := mkTrieStore (snapshots_ s ++ [t'])).
  assert (Hwf' : store_wf h' s') by by apply (store_wf_append h).
  assert (Hb' : (vec_size (snapshots_ s') < size_t_modulus)%Z).
  { unfold s'. simpl. rewrite vec_size_snoc. lia. }
  assert (Elast : last (snapshots_ s') = Some t') by apply last_snoc.
  assert (Hv : get_version s' = (get_version s + 1)%Z).
  { destruct Hwf' as (Hne' & _ & _).
    rewrite (get_version_eq s Hne), (get_version_eq s' Hne') by lia.
    unfold s'. simpl. rewrite vec_size_snoc. lia. }
  exists s', h'. split.
  { unfold TrieStore_Remove.
    rewrite (bind_run _ _ _ _ _ Eback), (bind_run _ _ _ _ _ Erun).
    unfold Trie_eq. rewrite bool_decide_eq_false_2 by done.
    unfold ret. f_equal. f_equal. f_equal. rewrite <- Hv.
    unfold get_version. destruct Hwf' as (Hne' & _ & _).
    by rewrite bool_decide_eq_false_2. }
  split; [done|]. split.
  { intros T. by rewrite (TrieStore_Get_latest_run T k s' h' t' Hwf' Hb' Elast), Hk. }
  intros T' k' Hne'.
  exists (mkValueGuard cur <$> lookup_value T' h cur k'),
         (mkValueGuard t' <$> lookup_value T' h' t' k').
  split; [apply TrieStore_Get_latest_run; [done|lia|done]|].
  split; [by apply TrieStore_Get_latest_run|].
  rewrite (Hother T' k' Hne'). by destruct (lookup_value T' h cur k').
Qed.

(** [Put] and [Remove] do not modify the trie they are called on: on
    the heap they leave behind, [Get] on the old trie answers every key,
    at every type, as before the call. *)
Theorem Trie_operations_are_persistent (t : Trie) (h : heap) :
  heap_closed h → trie_wf h t →
  (∀ T k v, ∃ t' h', Put T k v t h = Some (t', h')
     ∧ ∀ T' k', ∃ r, Get T' k' t h = Some (r, h) ∧ Get T' k' t h' = Some (r, h'))
  ∧ (∀ k, ∃ t' h', Remove k t h = Some (t', h')
       ∧ ∀ T' k', ∃ r, Get T' k' t h = Some (r, h) ∧ Get T' k' t h' = Some (r, h')).
Proof.
  intros Hc Ht.
  assert (Hold : ∀ h' : heap, h `prefix_of` h' → heap_closed h' →
            ∀ T' k', ∃ r, Get T' k' t h = Some (r, h)
                       ∧ Get T' k' t h' = Some (r, h')).
  { intros h' Hp Hc' T' k'. exists (lookup_value T' h t k').
    split; [by apply Get_run|].
    rewrite (Get_run T' h' t k' Hc' (trie_wf_prefix _ _ _ Ht Hp)).
    by rewrite (lookup_value_prefix T' h h' t k' Hc Hp Ht). }
  split.
  - intros T k v.
    destruct (Put_spec T v k t h Hc Ht) as (r & h' & Erun & Hp & Hc' & _).
    exists (Some r), h'. split; [done|]. by apply Hold.
  - intros k.
    destruct (Remove_cases k t h Hc Ht) as (t' & h' & Erun & Hp & Hc' & _).
    exists t', h'. split; [done|]. by apply Hold.
Qed.

End Model.

Arguments NodeClass : clear implicits.
Arguments TrieNode : clear implicits.
Arguments ValueGuard : clear implicits.

(** * A store of [int]s: the theorems at concrete tries *)

Module Examples.

(** Two value types, as [Get<int>] and [Get<uint32_t>] tell them apart. *)
Inductive cpp_type := t_int | t_uint32.

#[global] Instance cpp_type_eq_dec : EqDecision cpp_type.
Proof. solve_decision. Defined.

Abbreviation node := (TrieNode cpp_type Z).

Definition K (s : string) : key := String.list_ascii_of_string s.

(** The heap after [Put<int>("a", 1)] on the empty trie: the root at
    address 0, the node the loop made at 1 (which the value node
    replaced) and the value node at 2. *)
Definition heap_a : list node :=
  [ mkTrieNode {[ "a"%char := 2 ]} false ClsTrieNode;
    TrieNode_default;
    TrieNodeWithValue_new ∅ t_int 1%Z ].

(** The heap after [Put<int>("ab", 2)] on that trie: the new root at 3,
    the copy of the node of "a" at 4, the value node of "ab" at 6. *)
Definition heap_ab : list node :=
  heap_a ++
  [ mkTrieNode {[ "a"%char := 4 ]} false ClsTrieNode;
    mkTrieNode {[ "b"%char := 6 ]} true (ClsTrieNodeWithValue t_int 1%Z);
    TrieNode_default;
    TrieNodeWithValue_new ∅ t_int 2%Z ].

(** The store after [Put<int>("a", 1)]: versions 0 and 1. *)
Definition store_a : TrieStore := mkTrieStore [None; Some 0].

Ltac by_computation := apply (bool_decide_unpack _); vm_compute; exact I.

Example Put_a_runs : Put t_int (K "a") 1%Z None [] = Some (Some 0, heap_a).
Proof. vm_compute. reflexivity. Qed.

Example Put_ab_runs :
  Put t_int (K "ab") 2%Z (Some 0) heap_a = Some (Some 3, heap_ab).
Proof. vm_compute. reflexivity. Qed.

Example TrieStore_Put_a_runs :
  TrieStore_Put t_int (K "a") 1%Z TrieStore_new [] = Some ((1%Z, store_a), heap_a).
Proof. vm_compute. reflexivity. Qed.

Lemma heap_a_closed : heap_closed heap_a.
Proof. by_computation. Qed.

Lemma heap_ab_closed : heap_closed heap_ab.
Proof. by_computation. Qed.

Lemma store_a_wf : store_wf heap_a store_a.
Proof.
  split; [done|]. split; [apply heap_a_closed|].
  repeat constructor; simpl; lia.
Qed.

(** The scenario of the specification: versions 1, 2 and 3 of a store
    that gets "cat", then "car", then loses "cat"; version 1 still
    answers 1 for "cat". *)
Example end_to_end :
  ∃ s1 h1 s2 h2 s3 h3 t1 t3,
    TrieStore_Put t_int (K "cat") 1%Z TrieStore_new [] = Some ((1%Z, s1), h1)
    ∧ TrieStore_Put t_int (K "car") 2%Z s1 h1 = Some ((2%Z, s2), h2)
    ∧ TrieStore_Remove (K "cat") s2 h2 = Some ((3%Z, s3), h3)
    ∧ TrieStore_Get_latest t_int (K "cat") s3 h3 = Some (None, h3)
    ∧ TrieStore_Get_latest t_int (K "car") s3 h3
        = Some (Some (mkValueGuard t3 2%Z), h3)
    ∧ TrieStore_Get t_int (K "cat") 1 s3 h3 = Some (Some (mkValueGuard t1 1%Z), h3).
Proof.
  do 8 eexists.
  split; [vm_compute; reflexivity|]. split; [vm_compute; reflexivity|].
  split; [vm_compute; reflexivity|]. split; [vm_compute; reflexivity|].
  split; vm_compute; reflexivity.
Qed.

End Examples.

Import Examples.

(** ** The theorems at these tries *)

Lemma Put_Get_roundtrip_witness :
  heap_closed heap_a ∧ trie_wf heap_a (Some 0)
  ∧ ∃ t' h', Put t_int (K "ab") 2%Z (Some 0) heap_a = Some (t', h')
      ∧ Get t_int (K "ab") t' h' = Some (Some 2%Z, h').
Proof.
  split; [by_computation|]. split; [simpl; lia|].
  apply Put_Get_roundtrip; [by_computation|simpl; lia].
Defined.

(** After [Put("b", 5)] the key "a" still has the node at address 2. *)
Lemma Put_structural_sharing_witness :
  heap_closed heap_a ∧ trie_wf heap_a (Some 0)
  ∧ ∃ t' h', Put t_int (K "b") 5%Z (Some 0) heap_a = Some (t', h')
      ∧ node_of h' t' (K "a") = Some 2 ∧ h' !! 2 = heap_a !! 2.
Proof.
  split; [by_computation|]. split; [simpl; lia|].
  destruct (Put_structural_sharing t_int (K "b") 5%Z (Some 0) heap_a)
    as (t' & h' & Erun & _ & _ & _ & Hpart); [by_computation|simpl; lia|].
  exists t', h'. split; [exact Erun|].
  destruct (Hpart "a"%char [] 2) as (Hnode & _ & Hsame).
  - intros [k Hk]. discriminate Hk.
  - reflexivity.
  - split; [exact Hnode|exact Hsame].
Defined.

Lemma heap_ab_stores_ab : stored heap_ab (Some 3) (K "ab").
Proof. exists 6, (TrieNodeWithValue_new ∅ t_int 2%Z). by vm_compute. Qed.

(** [Remove("ab")] on the trie with "a" and "ab" leaves "a" as it was. *)
Lemma Remove_preserves_and_prunes_witness :
  heap_closed heap_ab ∧ trie_wf heap_ab (Some 3)
  ∧ stored heap_ab (Some 3) (K "ab")
  ∧ ∃ t' h', Remove (K "ab") (Some 3) heap_ab = Some (t', h')
      ∧ (∃ r, Get t_int (K "a") (Some 3) heap_ab = Some (r, heap_ab)
              ∧ Get t_int (K "a") t' h' = Some (r, h'))
      ∧ Get t_int (K "ab") t' h' = Some (None, h').
Proof.
  split; [by_computation|]. split; [simpl; lia|].
  split; [exact heap_ab_stores_ab|].
  destruct (proj1 (Remove_preserves_and_prunes (TypeTag:=cpp_type) (Val:=Z))
              (K "ab") (Some 3) heap_ab)
    as (t' & h' & Erun & Hother & Hgone & _);
    [by_computation|simpl; lia|exact heap_ab_stores_ab|].
  exists t', h'. split; [exact Erun|]. split; [|exact (Hgone t_int)].
  apply Hother. discriminate.
Defined.

Lemma heap_a_lacks_b : ¬ stored heap_a (Some 0) (K "b").
Proof. intros (q & n & Eq & _). by vm_compute in Eq. Qed.

Lemma Remove_absent_is_identity_witness :
  heap_closed heap_a ∧ trie_wf heap_a (Some 0)
  ∧ ∃ t' h', Remove (K "b") (Some 0) heap_a = Some (t', h')
      ∧ (∀ a n, heap_a !! a = Some n → h' !! a = Some n)
      ∧ (¬ stored heap_a (Some 0) (K "b") →
           t' = Some 0 ∧ Trie_eq t' (Some 0) = true)
      ∧ (stored heap_a (Some 0) (K "b") → Trie_eq t' (Some 0) = false).
Proof.
  split; [by_computation|]. split; [simpl; lia|].
  apply Remove_absent_is_identity; [by_computation|simpl; lia].
Defined.

Lemma Get_type_mismatch_is_absence_witness :
  heap_closed heap_a ∧ trie_wf heap_a (Some 0)
  ∧ Get t_int (K "a") (Some 0) heap_a = Some (Some 1%Z, heap_a)
  ∧ t_uint32 ≠ t_int
  ∧ Get t_uint32 (K "a") (Some 0) heap_a = Some (None, heap_a).
Proof.
  assert (Hc : heap_closed heap_a) by by_computation.
  assert (Ht : trie_wf heap_a (Some 0)) by (simpl; lia).
  assert (HU : Get t_int (K "a") (Some 0) heap_a = Some (Some 1%Z, heap_a))
    by (vm_compute; reflexivity).
  assert (Hne : t_uint32 ≠ t_int) by discriminate.
  split; [exact Hc|]. split; [exact Ht|]. split; [exact HU|].
  split; [exact Hne|].
  exact (proj1 (Get_type_mismatch_is_absence t_uint32 t_int (K "a") 1%Z
                  (Some 0) heap_a Hc Ht HU Hne)).
Defined.

Lemma TrieStore_version_monotone_witness :
  store_wf heap_a store_a
  ∧ (vec_size (snapshots_ store_a) < size_t_modulus)%Z
  ∧ (∃ s' h', TrieStore_Put t_int (K "b") 2%Z store_a heap_a
                = Some ((get_version store_a + 1, s'), h')%Z
              ∧ get_version s' = (get_version store_a + 1)%Z)
  ∧ (∃ h', TrieStore_Remove (K "b") store_a heap_a
             = Some ((get_version store_a, store_a), h')).
Proof.
  split; [exact store_a_wf|]. split; [reflexivity|].
  destruct (TrieStore_version_monotone store_a heap_a store_a_wf eq_refl)
    as [HPut HRemove].
  split; [exact (HPut t_int (K "b") 2%Z)|].
  exact (HRemove (K "b") (Some 0) eq_refl heap_a_lacks_b).
Defined.

Lemma TrieStore_pinned_version_stable_witness :
  store_wf heap_a store_a
  ∧ (vec_size (snapshots_ store_a) < size_t_modulus)%Z
  ∧ ∃ s' h',
      run_ops [OpPut t_int (K "b") 2%Z; OpRemove (K "a")] store_a heap_a
        = Some (s', h')
      ∧ snapshots_ store_a `prefix_of` snapshots_ s'
      ∧ ∀ T k n, (0 ≤ n < vec_size (snapshots_ store_a))%Z →
          ∃ r, TrieStore_Get T k n store_a heap_a = Some (r, heap_a)
            ∧ TrieStore_Get T k n s' h' = Some (r, h').
Proof.
  split; [exact store_a_wf|]. split; [reflexivity|].
  exact (TrieStore_pinned_version_stable
           [OpPut t_int (K "b") 2%Z; OpRemove (K "a")]
           store_a heap_a store_a_wf eq_refl).
Defined.

Lemma TrieStore_Get_out_of_range_witness :
  (vec_size (snapshots_ store_a) ≤ size_t_modulus)%Z
  ∧ is_size_t 2 ∧ (get_version store_a < 2)%Z ∧ 2%Z ≠ size_t_minus_one
  ∧ TrieStore_Get t_int (K "a") 2 store_a heap_a = Some (None, heap_a).
Proof.
  assert (Hb : (vec_size (snapshots_ store_a) ≤ size_t_modulus)%Z)
    by (vm_compute; discriminate).
  assert (Hs : is_size_t 2) by (split; vm_compute; congruence).
  assert (Hv : (get_version store_a < 2)%Z) by reflexivity.
  assert (Hne : 2%Z ≠ size_t_minus_one) by (vm_compute; discriminate).
  split; [exact Hb|]. split; [exact Hs|]. split; [exact Hv|].
  split; [exact Hne|].
  exact (TrieStore_Get_out_of_range t_int (K "a") 2 store_a heap_a Hb Hs Hv Hne).
Defined.

(** C7, as the claim states it, fails at the version
    [static_cast<size_t>(-1)] = 18446744073709551615: it lies outside
    [[0, get_version()]] = [[0, 1]], and [Get<int>("a", ...)] there
    returns the value 1 of the newest snapshot, not [std::nullopt]. *)
Lemma TrieStore_Get_sentinel_counterexample :
  store_wf heap_a store_a
  ∧ get_version store_a = 1%Z
  ∧ is_size_t 18446744073709551615
  ∧ ¬ (0 ≤ 18446744073709551615 ≤ get_version store_a)%Z
  ∧ TrieStore_Get t_int (K "a") 18446744073709551615 store_a heap_a
      = Some (Some (mkValueGuard (Some 0) 1%Z), heap_a)
  ∧ TrieStore_Get t_int (K "a") 18446744073709551615 store_a heap_a
      ≠ Some (None, heap_a).
Proof.
  split; [exact store_a_wf|]. split; [reflexivity|].
  split; [split; vm_compute; congruence|].
  split; [intros [_ H]; vm_compute in H; congruence|].
  split; [vm_compute; reflexivity|]. vm_compute. discriminate.
Qed.

Lemma Put_never_noop_witness :
  heap_closed heap_a ∧ trie_wf heap_a (Some 0)
  ∧ store_wf heap_a store_a
  ∧ (vec_size (snapshots_ store_a) < size_t_modulus)%Z
  ∧ (∃ r h', Put t_int (K "a") 1%Z (Some 0) heap_a = Some (Some r, h')
       ∧ heap_a !! r = None ∧ is_Some (h' !! r)
       ∧ Trie_eq (Some r) (Some 0) = false)
  ∧ (∃ ver s' h' t',
       TrieStore_Put t_int (K "a") 1%Z store_a heap_a = Some ((ver, s'), h')
       ∧ snapshots_ s' = snapshots_ store_a ++ [t']
       ∧ (get_version store_a < ver)%Z ∧ get_version s' = ver).
Proof.
  split; [by_computation|]. split; [simpl; lia|].
  split; [exact store_a_wf|]. split; [reflexivity|].
  destruct (Put_never_noop (TypeTag:=cpp_type) (Val:=Z)) as [HPut HStore].
  split.
  - apply HPut; [by_computation|simpl; lia].
  - exact (HStore t_int (K "a") 1%Z store_a heap_a store_a_wf eq_refl).
Defined.

(** ** The further properties at these tries *)

Lemma heap_a_alive : no_dead_nodes heap_a (Some 0).
Proof.
  destruct (Put_alive t_int (K "a") 1%Z None []) as (t' & h' & E & H).
  - apply heap_closed_nil.
  - exact I.
  - by intros k q n.
  - rewrite Put_a_runs in E. injection E as <- <-. exact H.
Qed.

Lemma heap_a_stores_a : stored heap_a (Some 0) (K "a").
Proof. exists 2, (TrieNodeWithValue_new ∅ t_int 1%Z). by vm_compute. Qed.

Lemma Put_preserves_other_keys_witness :
  heap_closed heap_a ∧ trie_wf heap_a (Some 0)
  ∧ ∃ t' h', Put t_int (K "ab") 2%Z (Some 0) heap_a = Some (t', h')
      ∧ ∃ r, Get t_int (K "a") (Some 0) heap_a = Some (r, heap_a)
             ∧ Get t_int (K "a") t' h' = Some (r, h').
Proof.
  split; [by_computation|]. split; [simpl; lia|].
  destruct (Put_preserves_other_keys t_int (K "ab") 2%Z (Some 0) heap_a)
    as (t' & h' & Erun & Hother); [by_computation|simpl; lia|].
  exists t', h'. split; [exact Erun|]. apply Hother. discriminate.
Defined.

Lemma Put_overwrites_type_witness :
  heap_closed heap_a ∧ trie_wf heap_a (Some 0) ∧ t_int ≠ t_uint32
  ∧ ∃ t' h', Put t_uint32 (K "a") 9%Z (Some 0) heap_a = Some (t', h')
      ∧ Get t_int (K "a") t' h' = Some (None, h').
Proof.
  split; [by_computation|]. split; [simpl; lia|]. split; [discriminate|].
  apply Put_overwrites_type; [by_computation|simpl; lia|discriminate].
Defined.

Lemma Put_allocates_path_only_witness :
  heap_closed heap_a ∧ trie_wf heap_a (Some 0)
  ∧ ∃ t' h', Put t_int (K "ab") 2%Z (Some 0) heap_a = Some (t', h')
      ∧ length h' = length heap_a + length (K "ab") + 2.
Proof.
  split; [by_computation|]. split; [simpl; lia|].
  apply Put_allocates_path_only; [by_computation|simpl; lia].
Defined.

Lemma Remove_allocates_path_only_witness :
  heap_closed heap_ab ∧ trie_wf heap_ab (Some 3)
  ∧ ∃ t' h', Remove (K "ab") (Some 3) heap_ab = Some (t', h')
      ∧ length heap_ab ≤ length h'
      ∧ length h' ≤ length heap_ab + length (K "ab") + 1
      ∧ (t' ≠ Some 3 → length h' = length heap_ab + length (K "ab") + 1)
      ∧ (Some 3 = None → h' = heap_ab).
Proof.
  split; [by_computation|]. split; [simpl; lia|].
  apply Remove_allocates_path_only; [by_computation|simpl; lia].
Defined.

Lemma Remove_structural_sharing_witness :
  heap_closed heap_ab ∧ trie_wf heap_ab (Some 3)
  ∧ ∃ t' h', Remove (K "a") (Some 3) heap_ab = Some (t', h')
      ∧ node_of h' t' (K "ab") = Some 6.
Proof.
  split; [by_computation|]. split; [simpl; lia|].
  destruct (Remove_structural_sharing (K "a") (Some 3) heap_ab)
    as (t' & h' & Erun & Hoff); [by_computation|simpl; lia|].
  exists t', h'. split; [exact Erun|]. rewrite Hoff; [reflexivity|].
  intros [k Hk]. discriminate Hk.
Defined.

Lemma Remove_twice_witness :
  heap_closed heap_ab ∧ trie_wf heap_ab (Some 3)
  ∧ ∃ t1 h1 h2, Remove (K "ab") (Some 3) heap_ab = Some (t1, h1)
      ∧ ¬ stored h1 t1 (K "ab")
      ∧ Remove (K "ab") t1 h1 = Some (t1, h2).
Proof.
  split; [by_computation|]. split; [simpl; lia|].
  apply Remove_twice; [by_computation|simpl; lia].
Defined.

Lemma Put_then_Remove_witness :
  heap_closed heap_a ∧ trie_wf heap_a (Some 0)
  ∧ ∃ t1 h1 t2 h2, Put t_int (K "ab") 2%Z (Some 0) heap_a = Some (t1, h1)
      ∧ Remove (K "ab") t1 h1 = Some (t2, h2)
      ∧ (∀ T', Get T' (K "ab") t2 h2 = Some (None, h2))
      ∧ (∀ T' k', k' ≠ K "ab" →
           ∃ r, Get T' k' (Some 0) heap_a = Some (r, heap_a)
                ∧ Get T' k' t2 h2 = Some (r, h2)).
Proof.
  split; [by_computation|]. split; [simpl; lia|].
  apply Put_then_Remove; [by_computation|simpl; lia].
Defined.

Lemma Put_then_Remove_on_empty_witness :
  heap_closed heap_a
  ∧ ∃ t1 h1 h2, Put t_int (K "cat") 1%Z None heap_a = Some (t1, h1)
      ∧ Remove (K "cat") t1 h1 = Some (None, h2).
Proof.
  split; [by_computation|].
  apply Put_then_Remove_on_empty. by_computation.
Defined.

Lemma Put_keeps_no_dead_nodes_witness :
  heap_closed heap_a ∧ trie_wf heap_a (Some 0) ∧ no_dead_nodes heap_a (Some 0)
  ∧ ∃ t' h', Put t_int (K "ab") 2%Z (Some 0) heap_a = Some (t', h')
      ∧ no_dead_nodes h' t'.
Proof.
  split; [by_computation|]. split; [simpl; lia|]. split; [exact heap_a_alive|].
  apply Put_keeps_no_dead_nodes; [by_computation|simpl; lia|exact heap_a_alive].
Defined.

Lemma Remove_keeps_no_dead_nodes_witness :
  heap_closed heap_a ∧ trie_wf heap_a (Some 0) ∧ no_dead_nodes heap_a (Some 0)
  ∧ ∃ t' h', Remove (K "a") (Some 0) heap_a = Some (t', h')
      ∧ no_dead_nodes h' t'.
Proof.
  split; [by_computation|]. split; [simpl; lia|]. split; [exact heap_a_alive|].
  apply Remove_keeps_no_dead_nodes; [by_computation|simpl; lia|exact heap_a_alive].
Defined.

Lemma TrieStore_versions_grow_slowly_witness :
  store_wf heap_a store_a
  ∧ (vec_size (snapshots_ store_a) + Z.of_nat 2 < size_t_modulus)%Z
  ∧ ∃ s' h',
      run_ops [OpPut t_int (K "b") 2%Z; OpRemove (K "zz")] store_a heap_a
        = Some (s', h')
      ∧ (get_version store_a ≤ get_version s' ≤ get_version store_a + Z.of_nat 2)%Z.
Proof.
  split; [exact store_a_wf|]. split; [reflexivity|].
  exact (TrieStore_versions_grow_slowly
           [OpPut t_int (K "b") 2%Z; OpRemove (K "zz")]
           store_a heap_a store_a_wf eq_refl).
Defined.

Lemma TrieStore_Get_guard_witness :
  store_wf heap_a store_a
  ∧ TrieStore_Get t_int (K "a") 1 store_a heap_a
      = Some (Some (mkValueGuard (Some 0) 1%Z), heap_a)
  ∧ snapshots_ store_a !! 1 = Some (Some 0)
  ∧ Get t_int (K "a") (Some 0) heap_a = Some (Some 1%Z, heap_a).
Proof.
  assert (E : TrieStore_Get t_int (K "a") 1 store_a heap_a
              = Some (Some (mkValueGuard (Some 0) 1%Z), heap_a))
    by (vm_compute; reflexivity).
  split; [exact store_a_wf|]. split; [exact E|].
  destruct (TrieStore_Get_guard t_int (K "a") 1 store_a heap_a
              (mkValueGuard (Some 0) 1%Z) heap_a store_a_wf E)
    as (_ & Hroot & Hget).
  split; [exact Hroot|exact Hget].
Defined.

Lemma TrieStore_Put_then_Get_witness :
  store_wf heap_a store_a
  ∧ (vec_size (snapshots_ store_a) + 1 < size_t_modulus)%Z
  ∧ ∃ ver s' h' t',
      TrieStore_Put t_int (K "b") 2%Z store_a heap_a = Some ((ver, s'), h')
      ∧ TrieStore_Get_latest t_int (K "b") s' h'
          = Some (Some (mkValueGuard t' 2%Z), h').
Proof.
  split; [exact store_a_wf|]. split; [reflexivity|].
  destruct (TrieStore_Put_then_Get t_int (K "b") 2%Z store_a heap_a
              store_a_wf eq_refl)
    as (ver & s' & h' & t' & Erun & _ & Hget & _).
  exists ver, s', h', t'. split; [exact Erun|exact Hget].
Defined.

Lemma TrieStore_Remove_stored_witness :
  store_wf heap_a store_a
  ∧ (vec_size (snapshots_ store_a) + 1 < size_t_modulus)%Z
  ∧ last (snapshots_ store_a) = Some (Some 0)
  ∧ stored heap_a (Some 0) (K "a")
  ∧ ∃ s' h',
      TrieStore_Remove (K "a") store_a heap_a
        = Some ((get_version store_a + 1, s'), h')%Z
      ∧ (∀ T, TrieStore_Get_latest T (K "a") s' h' = Some (None, h')).
Proof.
  split; [exact store_a_wf|]. split; [reflexivity|]. split; [reflexivity|].
  split; [exact heap_a_stores_a|].
  destruct (TrieStore_Remove_stored (K "a") store_a heap_a (Some 0)
              store_a_wf eq_refl eq_refl heap_a_stores_a)
    as (s' & h' & Erun & _ & Hgone & _).
  exists s', h'. split; [exact Erun|exact Hgone].
Defined.

Lemma Trie_operations_are_persistent_witness :
  heap_closed heap_a ∧ trie_wf heap_a (Some 0)
  ∧ ∃ t' h', Put t_int (K "a") 5%Z (Some 0) heap_a = Some (t', h')
      ∧ ∃ r, Get t_int (K "a") (Some 0) heap_a = Some (r, heap_a)
             ∧ Get t_int (K "a") (Some 0) h' = Some (r, h').
Proof.
  split; [by_computation|]. split; [simpl; lia|].
  destruct (Trie_operations_are_persistent (Some 0) heap_a) as [HPut _];
    [by_computation|simpl; lia|].
  destruct (HPut t_int (K "a") 5%Z) as (t' & h' & Erun & Hold).
  exists t', h'. split; [exact Erun|]. apply Hold.
Defined.
